(** * scripts/generate.js: merging the channel lists

    A shallow embedding of [scripts/generate.js] and the properties of its
    loader, its two validators and its orchestrator.

    The script reads JSON files, so its data are the values [JSON.parse]
    builds.  Effects are modelled as the script has them: a thrown error
    is an explicit [Throw], the console and the calls of the file system
    are a trace of events, the promise of [mergeData] either resolves or
    stays pending, and the call of [fs.writeFileSync] either returns or
    throws into the [catch] block.  A disk, the nodes below the root of
    the repository by path, gives the runs something to read and to
    write. *)

From Stdlib Require Import List String Ascii Bool Arith Lia.
From Stdlib Require Import Sorted DecimalString Permutation.
Import ListNotations.
Open Scope string_scope.
Open Scope list_scope.

(** ** Values *)

(** A value built by [JSON.parse].  A number is kept as the text
    [Number::toString] gives for it: [JSON.parse] never yields [NaN], and
    [0] and [-0] share the text ["0"] and are equal for [===] and for
    [Set.prototype.has], so two parsed numbers are equal exactly when their
    texts agree.  A string is kept as the characters of its UTF-8 form.
    An object is the list of its own properties in property order;
    [JSON.parse] keeps one value per key. *)
#[warnings="-register-all"]
Inductive json : Type :=
| JNull
| JBool (b : bool)
| JNum (text : string)
| JStr (s : string)
| JArr (elems : list json)
| JObj (props : list (string * json)).

(** What a property read gives: [None] is [undefined]. *)
Definition value : Type := option json.

(** What is thrown: a [TypeError] of the language, or the error of a file
    system call, with its code ([EACCES], [ENOSPC], [EISDIR], ...). *)
Inductive error : Type :=
| TypeError (msg : string)
| SystemError (code : string).

Inductive result (A : Type) : Type :=
| Ok (a : A)
| Throw (e : error).

Arguments Ok {A} a.
Arguments Throw {A} e.

Definition bind {A B : Type} (m : result A) (k : A -> result B) : result B :=
  match m with
  | Ok a => k a
  | Throw e => Throw e
  end.

Notation "x <- m ;; k" := (bind m (fun x => k))
  (at level 61, m at next level, right associativity).

(** ** Property access *)

Fixpoint assoc (key : string) (props : list (string * json)) : value :=
  match props with
  | [] => None
  | (k, v) :: rest => if String.eqb key k then Some v else assoc key rest
  end.

Definition has_own (key : string) (props : list (string * json)) : bool :=
  existsb (fun kv => String.eqb key (fst kv)) props.

(** [item.key] and [item[key]], for the keys the script reads ([number],
    [name], [code], [type], [category], [playlist], [audio]): none of them
    is a property of an array, a string, a number or a boolean, nor of
    [Object.prototype], so only an object's own properties can answer.
    Reading a property of [null] throws. *)
Definition Get (item : json) (key : string) : result value :=
  match item with
  | JNull => Throw (TypeError "Cannot read properties of null")
  | JObj props => Ok (assoc key props)
  | _ => Ok None
  end.

(** [item.hasOwnProperty(key)], for the same keys.  The method is looked up
    on the item itself: an object with an own property of that name shadows
    [Object.prototype.hasOwnProperty] with a parsed value, which is not
    callable. *)
Definition hasOwnProperty (item : json) (key : string) : result bool :=
  match item with
  | JNull => Throw (TypeError "Cannot read properties of null")
  | JObj props =>
      if has_own "hasOwnProperty" props
      then Throw (TypeError "item.hasOwnProperty is not a function")
      else Ok (has_own key props)
  | _ => Ok false
  end.

(** [typeof v === "string"] *)
Definition typeof_string (v : value) : bool :=
  match v with
  | Some (JStr _) => true
  | _ => false
  end.

(** ** Loose equality with a string *)

(** [ToString] of a parsed value.  An array answers through
    [Array.prototype.join], which writes [null] as the empty text; an
    object answers ["[object Object]"] unless an own [toString] property
    shadows the method, in which case no conversion is left. *)
Fixpoint ToString (v : json) : result string :=
  match v with
  | JNull => Ok "null"
  | JBool true => Ok "true"
  | JBool false => Ok "false"
  | JNum text => Ok text
  | JStr s => Ok s
  | JArr elems =>
      (fix join (l : list json) : result string :=
         match l with
         | [] => Ok ""
         | x :: rest =>
             s <- match x with JNull => Ok "" | _ => ToString x end ;;
             match rest with
             | [] => Ok s
             | _ => r <- join rest ;; Ok (s ++ "," ++ r)%string
             end
         end) elems
  | JObj props =>
      if has_own "toString" props
      then Throw (TypeError "Cannot convert object to primitive value")
      else Ok "[object Object]"
  end.

(** [v == "audio"].  [undefined] and [null] equal only each other; a
    boolean or a number is compared with [ToNumber("audio")], which is
    [NaN]; a string is compared as by [===]; an array or an object is
    first converted to a primitive, which for parsed values is [ToString]. *)
Definition loose_eq_audio (v : value) : result bool :=
  match v with
  | None => Ok false
  | Some JNull => Ok false
  | Some (JBool _) => Ok false
  | Some (JNum _) => Ok false
  | Some (JStr s) => Ok (String.eqb s "audio")
  | Some (JArr elems) => p <- ToString (JArr elems) ;; Ok (String.eqb p "audio")
  | Some (JObj props) => p <- ToString (JObj props) ;; Ok (String.eqb p "audio")
  end.

(** ** The shape validator *)

Definition videoRequiredKeys : list string :=
  ["number"; "name"; "code"; "type"; "category"; "playlist"].

Definition audioRequiredKeys : list string :=
  ["number"; "name"; "code"; "type"; "audio"].

Record invalidItem : Type := { channel : value; missing : list string }.

Record validation : Type :=
  { isValid : bool; invalidItems : list invalidItem }.

(** Lines 57-60. *)
Definition currentRequiredKeys (item : json) : result (list string) :=
  type <- Get item "type" ;;
  audio <- loose_eq_audio type ;;
  Ok (if audio then audioRequiredKeys else videoRequiredKeys).

(** Line 63: [item.hasOwnProperty(key) && typeof item[key] === "string"]. *)
Definition hasKey (item : json) (key : string) : result bool :=
  own <- hasOwnProperty item key ;;
  if own then v <- Get item key ;; Ok (typeof_string v) else Ok false.

(** Lines 62-68: [currentRequiredKeys.every(callback)].  [every] calls the
    callback on the keys in order and stops at the first key for which it
    answers [false]; the callback pushes that key on [missingKeys]. *)
Fixpoint every (item : json) (keys : list string) (missingKeys : list string)
  : result (bool * list string) :=
  match keys with
  | [] => Ok (true, missingKeys)
  | key :: rest =>
      present <- hasKey item key ;;
      if present then every item rest missingKeys
      else Ok (false, missingKeys ++ [key])
  end.

(** The callback of [data.forEach], lines 55-73. *)
Definition validateItem (item : json) (invalid : list invalidItem)
  : result (list invalidItem) :=
  keys <- currentRequiredKeys item ;;
  r <- every item keys [] ;;
  let '(hasAllKeys, missingKeys) := r in
  if hasAllKeys then Ok invalid
  else
    number <- Get item "number" ;;
    Ok (invalid ++ [{| channel := number; missing := missingKeys |}]).

Fixpoint forEach_validateItem (data : list json) (invalid : list invalidItem)
  : result (list invalidItem) :=
  match data with
  | [] => Ok invalid
  | item :: rest =>
      invalid' <- validateItem item invalid ;;
      forEach_validateItem rest invalid'
  end.

Definition validateItemFormat (data : list json) : result validation :=
  invalid <- forEach_validateItem data [] ;;
  Ok {| isValid := Nat.eqb (List.length invalid) 0; invalidItems := invalid |}.

(** ** The uniqueness validator *)

Module Dup.
Record entry : Type := { channel : value; count : nat }.
End Dup.

Record check : Type :=
  { hasDuplicate : bool; duplicates : list Dup.entry }.

(** Equality of two values read from two different items, as
    [Set.prototype.has] (SameValueZero) and [===] decide it; the two agree
    on parsed values.  Primitives are compared by value.  An array or an
    object is compared by reference, and every array or object that
    [JSON.parse] builds is a new one, so it equals no value of another
    item. *)
Definition same_value (a b : value) : bool :=
  match a, b with
  | None, None => true
  | Some JNull, Some JNull => true
  | Some (JBool x), Some (JBool y) => Bool.eqb x y
  | Some (JNum x), Some (JNum y) => String.eqb x y
  | Some (JStr x), Some (JStr y) => String.eqb x y
  | _, _ => false
  end.

(** [existing.has(number)]; the set is kept as the list of its members in
    insertion order. *)
Definition Set_has (existing : list value) (number : value) : bool :=
  existsb (same_value number) existing.

(** [duplicates.find((d) => d.channel === number)], as the position of the
    entry found. *)
Fixpoint find (number : value) (dups : list Dup.entry) : option nat :=
  match dups with
  | [] => None
  | d :: rest =>
      if same_value (Dup.channel d) number then Some 0
      else option_map S (find number rest)
  end.

(** [duplicateEntry.count += 1] on the entry at position [i]. *)
Fixpoint increment (i : nat) (dups : list Dup.entry) : list Dup.entry :=
  match dups, i with
  | [], _ => []
  | d :: rest, 0 =>
      {| Dup.channel := Dup.channel d; Dup.count := Dup.count d + 1 |} :: rest
  | d :: rest, S j => d :: increment j rest
  end.

(** The [for ... of] loop, lines 89-101. *)
Fixpoint for_of (data : list json) (existing : list value)
  (dups : list Dup.entry) : result (list Dup.entry) :=
  match data with
  | [] => Ok dups
  | item :: rest =>
      number <- Get item "number" ;;
      if Set_has existing number then
        match find number dups with
        | Some i => for_of rest existing (increment i dups)
        | None =>
            for_of rest existing
              (dups ++ [{| Dup.channel := number; Dup.count := 2 |}])
        end
      else for_of rest (existing ++ [number]) dups
  end.

Definition checkForDuplicateNumber (data : list json) : result check :=
  dups <- for_of data [] [] ;;
  Ok {| hasDuplicate := Nat.ltb 0 (List.length dups); duplicates := dups |}.

(** ** The loader *)

(** What [JSON.parse(fs.readFileSync(filePath, "utf-8"))] does for one
    directory entry: it throws, or it returns the parsed value. *)
Inductive file_result : Type :=
| Unparsable
| Parsed (fileData : json).

(** What [fs.readdir] hands to its callback: an error, or the entries of
    the directory in enumeration order. *)
Inductive readdir_result : Type :=
| ReaddirError
| Files (files : list (string * file_result)).

Inductive promise (A : Type) : Type :=
| Resolved (a : A)
| Pending.

Arguments Resolved {A} a.
Arguments Pending {A}.

(** What [fs.writeFileSync(savePath, dataString, "utf-8")] does when the
    script calls it: it returns, or it throws; [remains] is the text the call
    that throws has left in the file, when it has touched the file (a file
    opened and cut short, a disk that filled up), and [None] when it has
    not (a file or a directory that may not be written). *)
Inductive write_result : Type :=
| Write_done
| Write_failed (e : error) (remains : option string).

(** The effects of a run, in the order they happen.  [WriteFile] is the
    call of [fs.writeFileSync]; what becomes of the call is told by the
    event after it, the message of line 131 or that of the [catch]. *)
Inductive event : Type :=
| Error_reading_directory
| Error_parsing_file (file : string)
| Call_validateItemFormat
| Error_invalid_items
| Table_invalid_items (rows : list invalidItem)
| Call_checkForDuplicateNumber
| Error_duplicates
| Table_duplicates (rows : list Dup.entry)
| WriteFile (path : string) (content : string)
| Log (line : string)
| Error_occurred (e : error).

(** [mergedData.concat(fileData)]: an array argument is spread by one
    level, any other value is appended as one element. *)
Definition concat (mergedData : list json) (fileData : json) : list json :=
  match fileData with
  | JArr elems => mergedData ++ elems
  | v => mergedData ++ [v]
  end.

(** [files.forEach], lines 20-32. *)
Fixpoint forEach_file (files : list (string * file_result))
  (mergedData : list json) (log : list event) : list json * list event :=
  match files with
  | [] => (mergedData, log)
  | (file, Parsed fileData) :: rest =>
      forEach_file rest (concat mergedData fileData) log
  | (file, Unparsable) :: rest =>
      forEach_file rest mergedData (log ++ [Error_parsing_file file])
  end.

(** [mergeData]: when [fs.readdir] fails the callback returns after the
    console message, and the promise is neither resolved nor rejected. *)
Definition mergeData (dir : readdir_result)
  : promise (list json) * list event :=
  match dir with
  | ReaddirError => (Pending, [Error_reading_directory])
  | Files files =>
      let '(mergedData, log) := forEach_file files [] [] in
      (Resolved mergedData, log)
  end.

(** ** JSON.stringify *)

Definition chr (n : nat) : string := String (ascii_of_nat n) EmptyString.

Definition hex (n : nat) : string :=
  match nth_error (list_ascii_of_string "0123456789abcdef") n with
  | Some c => String c EmptyString
  | None => EmptyString
  end.

(** One character of [QuoteJSONString]: the quote, the backslash and the
    control characters are escaped, everything else is copied. *)
Definition escape (c : ascii) : string :=
  let n := nat_of_ascii c in
  (if Nat.eqb n 8 then chr 92 ++ "b"
   else if Nat.eqb n 9 then chr 92 ++ "t"
   else if Nat.eqb n 10 then chr 92 ++ "n"
   else if Nat.eqb n 12 then chr 92 ++ "f"
   else if Nat.eqb n 13 then chr 92 ++ "r"
   else if Nat.eqb n 34 then chr 92 ++ chr 34
   else if Nat.eqb n 92 then chr 92 ++ chr 92
   else if Nat.ltb n 32 then chr 92 ++ "u00" ++ hex (n / 16) ++ hex (n mod 16)
   else String c EmptyString)%string.

Fixpoint escape_all (s : string) : string :=
  match s with
  | EmptyString => EmptyString
  | String c rest => (escape c ++ escape_all rest)%string
  end.

Definition QuoteJSONString (s : string) : string :=
  (chr 34 ++ escape_all s ++ chr 34)%string.

Fixpoint join (separator : string) (partial : list string) : string :=
  match partial with
  | [] => EmptyString
  | [p] => p
  | p :: rest => (p ++ separator ++ join separator rest)%string
  end.

(** Wrapping of the serialized members of an array or an object
    ([SerializeJSONArray], [SerializeJSONObject]). *)
Definition wrap (opening closing gap stepback : string)
  (partial : list string) : string :=
  match partial with
  | [] => (opening ++ closing)%string
  | _ =>
      if String.eqb gap EmptyString
      then (opening ++ join "," partial ++ closing)%string
      else
        let indent := (stepback ++ gap)%string in
        (opening ++ chr 10 ++ indent
           ++ join ("," ++ chr 10 ++ indent) partial
           ++ chr 10 ++ stepback ++ closing)%string
  end.

(** [SerializeJSONProperty] on a parsed value, at indentation [indent].
    A number that is not finite is written [null]; no parsed value is a
    function or [undefined], and none has a callable [toJSON], so every
    element and every property is written. *)
Fixpoint SerializeJSONProperty (gap indent : string) (v : json) : string :=
  match v with
  | JNull => "null"
  | JBool true => "true"
  | JBool false => "false"
  | JNum text =>
      if String.eqb text "Infinity" || String.eqb text "-Infinity"
      then "null" else text
  | JStr s => QuoteJSONString s
  | JArr elems =>
      wrap "[" "]" gap indent
        (map (SerializeJSONProperty gap (indent ++ gap)%string) elems)
  | JObj props =>
      wrap "{" "}" gap indent
        (map (fun kv =>
                let '(k, x) := kv in
                (QuoteJSONString k ++ ":"
                   ++ (if String.eqb gap EmptyString then "" else " ")
                   ++ SerializeJSONProperty gap (indent ++ gap)%string x)%string)
           props)
  end.

Fixpoint spaces (n : nat) : string :=
  match n with
  | 0 => EmptyString
  | S m => String " "%char (spaces m)
  end.

(** [JSON.stringify(data, null, space)] for an array [data] and a number
    [space]: the gap is [min(space, 10)] spaces. *)
Definition JSON_stringify (data : list json) (space : nat) : string :=
  SerializeJSONProperty (spaces (Nat.min space 10)) EmptyString (JArr data).

(** ** The orchestrator *)

(** [path.join(__dirname, "../lists")] and [path.join(__dirname,
    "../list.json")], from the root of the repository: the output file
    lies beside the directory of the lists, not in it. *)
Definition listsDirectoryPath : string := "lists".
Definition savePath : string := "list.json".

Definition decimal (n : nat) : string := NilEmpty.string_of_uint (Nat.to_uint n).

Definition success (total : nat) : string :=
  ("Success: Total of " ++ decimal total ++ " entries written to list.json")%string.

(** Lines 126-131, once both checks have passed, inside the [try] of line
    108: when [fs.writeFileSync] throws, line 131 is not reached and the
    [catch] of line 132 prints the error.  [JSON.stringify] itself
    returns: it throws on a cycle and on a [BigInt] only, and a value
    built by [JSON.parse] and [concat] has neither. *)
Definition write (mergedData : list json) (answer : write_result)
  : list event :=
  let total := List.length mergedData in
  let dataString := JSON_stringify mergedData 2 in
  WriteFile savePath dataString ::
  match answer with
  | Write_done => [Log (success total)]
  | Write_failed e _ => [Error_occurred e]
  end.

(** Lines 119-125 and what follows them. *)
Definition after_validation (mergedData : list json) (answer : write_result)
  : list event :=
  Call_checkForDuplicateNumber ::
  match checkForDuplicateNumber mergedData with
  | Throw e => [Error_occurred e]
  | Ok check =>
      if hasDuplicate check
      then [Error_duplicates; Table_duplicates (duplicates check)]
      else write mergedData answer
  end.

(** Lines 111-117 and what follows them. *)
Definition after_merge (mergedData : list json) (answer : write_result)
  : list event :=
  Call_validateItemFormat ::
  match validateItemFormat mergedData with
  | Throw e => [Error_occurred e]
  | Ok validation =>
      if negb (isValid validation)
      then [Error_invalid_items; Table_invalid_items (invalidItems validation)]
      else after_validation mergedData answer
  end.

(** The async function of lines 107-135, as the trace of its effects, in
    a run where the file system answers the call of line 129, if the run
    gets there, with [answer].  A pending [mergeData] leaves the function
    suspended at its [await]. *)
Definition main (dir : readdir_result) (answer : write_result) : list event :=
  let '(merged, log) := mergeData dir in
  match merged with
  | Pending => log
  | Resolved mergedData => log ++ after_merge mergedData answer
  end.

(** ** The disk *)

(** A node of the file system: a file with its text, or a directory. *)
Inductive node : Type :=
| File (text : string)
| Directory.

(** The nodes below the root of the repository, each with its path from
    the root, in the order in which the file system enumerates them. *)
Definition disk : Type := list (string * node).

Fixpoint node_at (path : string) (d : disk) : option node :=
  match d with
  | [] => None
  | (p, n) :: rest => if String.eqb path p then Some n else node_at path rest
  end.

(** What is left of [s] after [prefix]. *)
Fixpoint strip (prefix s : string) : option string :=
  match prefix, s with
  | EmptyString, _ => Some s
  | String a p, String b r => if Ascii.eqb a b then strip p r else None
  | String _ _, EmptyString => None
  end.

Fixpoint has_separator (s : string) : bool :=
  match s with
  | EmptyString => false
  | String c rest => Ascii.eqb c "/" || has_separator rest
  end.

(** The name under which directory [dir] lists the node at [path]: [path]
    is [dir/name], and [name] is one segment. *)
Definition entry_name (dir path : string) : option string :=
  match strip (dir ++ "/") path with
  | Some name =>
      if String.eqb name EmptyString || has_separator name
      then None else Some name
  | None => None
  end.

(** [fs.writeFileSync(path, content)] when it returns: the file is
    replaced, or created. *)
Fixpoint writeFile (path content : string) (d : disk) : disk :=
  match d with
  | [] => [(path, File content)]
  | (p, n) :: rest =>
      if String.eqb path p then (p, File content) :: rest
      else (p, n) :: writeFile path content rest
  end.

(** The call of [fs.writeFileSync] in a trace, if there is one. *)
Fixpoint written (trace : list event) : option (string * string) :=
  match trace with
  | [] => None
  | WriteFile path content :: _ => Some (path, content)
  | _ :: rest => written rest
  end.

Section Disk.

(** [JSON.parse] on the text of a file; [None] when it throws. *)
Variable JSON_parse : string -> option json.

(** [JSON.parse(fs.readFileSync(filePath, "utf-8"))], line 25: reading a
    directory throws, and so does parsing a text that is not JSON. *)
Definition readFile (n : node) : file_result :=
  match n with
  | File text =>
      match JSON_parse text with
      | Some fileData => Parsed fileData
      | None => Unparsable
      end
  | Directory => Unparsable
  end.

Fixpoint entries (dir : string) (d : disk) : list (string * file_result) :=
  match d with
  | [] => []
  | (p, n) :: rest =>
      match entry_name dir p with
      | Some name => (name, readFile n) :: entries dir rest
      | None => entries dir rest
      end
  end.

(** [fs.readdir(listsDirectoryPath, ...)] with line 25 for each of the
    names: an error when the path is not that of a directory. *)
Definition readdir (d : disk) : readdir_result :=
  match node_at listsDirectoryPath d with
  | Some Directory => Files (entries listsDirectoryPath d)
  | _ => ReaddirError
  end.

(** One run of the script on a disk: the disk after it.  The script
    touches the disk at line 129 only; a call that returns has replaced
    or created the file, a call that throws has left [remains] in it, or
    has not touched it.  How the call is answered is the file system's:
    it throws, for one, when the path is that of a directory. *)
Definition run (d : disk) (answer : write_result) : disk :=
  match written (main (readdir d) answer), answer with
  | Some (path, content), Write_done => writeFile path content d
  | Some (path, _), Write_failed _ (Some remains) => writeFile path remains d
  | _, _ => d
  end.

End Disk.

(** ** The schema, as the specification words it *)

(** A field is present when the record has the key and its value is a
    string. *)
Definition present (props : list (string * json)) (key : string) : bool :=
  has_own key props && typeof_string (assoc key props).

(** The variant of a record: audio when its [type] is the string
    ["audio"], video otherwise. *)
Definition is_audio (props : list (string * json)) : bool :=
  match assoc "type" props with
  | Some (JStr s) => String.eqb s "audio"
  | _ => false
  end.

Definition requiredKeys (props : list (string * json)) : list string :=
  if is_audio props then audioRequiredKeys else videoRequiredKeys.

(** The complete ordered list of the required fields a record misses. *)
Definition all_missing (props : list (string * json)) : list string :=
  filter (fun key => negb (present props key)) (requiredKeys props).

(** A record satisfies the schema of its variant. *)
Definition satisfies_schema (item : json) : bool :=
  match item with
  | JObj props => forallb (present props) (requiredKeys props)
  | _ => false
  end.

(** The [number] of an item that is not [null]. *)
Definition number_of (item : json) : value :=
  match item with
  | JObj props => assoc "number" props
  | _ => None
  end.

(** Records that carry an own property named [hasOwnProperty]. *)
Definition shadows_hasOwnProperty (item : json) : bool :=
  match item with
  | JObj props => has_own "hasOwnProperty" props
  | _ => false
  end.

(** The entry of a record in the report, as the code builds it: none when
    no required field is missing, else the record's [number] with the
    first missing field. *)
Definition entry_of (props : list (string * json)) : list invalidItem :=
  match List.find (fun key => negb (present props key)) (requiredKeys props) with
  | Some key => [{| channel := assoc "number" props; missing := [key] |}]
  | None => []
  end.

(** ** Sample records *)

Definition video1 : json :=
  JObj [("number", JStr "1"); ("name", JStr "A"); ("code", JStr "c1");
        ("type", JStr "video"); ("category", JStr "x"); ("playlist", JStr "p")].

Definition video1' : json :=
  JObj [("number", JStr "1"); ("name", JStr "B"); ("code", JStr "c2");
        ("type", JStr "video"); ("category", JStr "y"); ("playlist", JStr "q")].

Definition audio2 : json :=
  JObj [("number", JStr "2"); ("name", JStr "R"); ("code", JStr "c3");
        ("type", JStr "audio"); ("audio", JStr "u")].

(** An audio record that lacks both [code] and [audio]. *)
Definition audio_two_missing : list (string * json) :=
  [("number", JStr "7"); ("name", JStr "N"); ("type", JStr "audio")].

(** A record whose [type] is the array [["audio"]]. *)
Definition type_in_array : list (string * json) :=
  [("number", JStr "3"); ("name", JStr "N"); ("code", JStr "c");
   ("type", JArr [JStr "audio"])].

(** A record whose [type] is an object with a [toString] property. *)
Definition type_with_toString : list (string * json) :=
  [("number", JStr "3"); ("name", JStr "N"); ("code", JStr "c");
   ("type", JObj [("toString", JStr "audio")]);
   ("category", JStr "x"); ("playlist", JStr "p")].

(** A complete video record with one more property, [hasOwnProperty]. *)
Definition video_shadowing : list (string * json) :=
  [("number", JStr "1"); ("name", JStr "A"); ("code", JStr "c1");
   ("type", JStr "video"); ("category", JStr "x"); ("playlist", JStr "p");
   ("hasOwnProperty", JStr "yes")].

(** ** Counting the numbers of a merged collection *)

Definition numbers (data : list json) : list value := map number_of data.

(** How many of the numbers [ns] equal [v]. *)
Definition occurrences (v : value) (ns : list value) : nat :=
  List.length (filter (fun n => same_value n v) ns).

(** The position in [ns] of the occurrence of [v] that has [k] earlier
    ones, or the length of [ns] when there are not that many. *)
Fixpoint occurrence (k : nat) (v : value) (ns : list value) : nat :=
  match ns with
  | [] => 0
  | n :: rest =>
      if same_value n v then
        match k with
        | 0 => 0
        | S k' => S (occurrence k' v rest)
        end
      else S (occurrence k v rest)
  end.

Definition second_occurrence (v : value) (ns : list value) : nat :=
  occurrence 1 v ns.

(** The state of the loop of [checkForDuplicateNumber] once the numbers
    [seen] have been read: [existing] holds the values that occurred,
    [dups] one entry for each value that occurred twice or more, with its
    count, in the order of the second occurrences. *)
Record counted (seen : list value) (existing : list value)
  (dups : list Dup.entry) : Prop :=
  { counted_existing :
      forall v, Set_has existing v = true <-> 1 <= occurrences v seen;
    counted_count :
      Forall (fun d => Dup.count d = occurrences (Dup.channel d) seen) dups;
    counted_once : NoDup (map Dup.channel dups);
    counted_twice :
      forall v, In v (map Dup.channel dups) <-> 2 <= occurrences v seen;
    counted_order :
      StronglySorted lt
        (map (fun d => second_occurrence (Dup.channel d) seen) dups) }.

(** ** What a run leaves behind *)

(** What a directory entry adds to the merged data. *)
Definition contribution (entry : string * file_result) : list json :=
  match snd entry with
  | Unparsable => []
  | Parsed (JArr elems) => elems
  | Parsed v => [v]
  end.

(** The console line of a directory entry. *)
Definition complaint (entry : string * file_result) : list event :=
  match snd entry with
  | Unparsable => [Error_parsing_file (fst entry)]
  | Parsed _ => []
  end.

Definition is_write (e : event) : bool :=
  match e with
  | WriteFile _ _ => true
  | _ => false
  end.

Definition is_call_check (e : event) : bool :=
  match e with
  | Call_checkForDuplicateNumber => true
  | _ => false
  end.

(** The events of the loader. *)
Definition is_loader_event (e : event) : bool :=
  match e with
  | Error_reading_directory | Error_parsing_file _ => true
  | _ => false
  end.

Definition is_string (v : value) : Prop := exists s, v = Some (JStr s).

(** ** Sample directories *)

(** One list of audio records, one unreadable file, one list of video
    records. *)
Definition sample_files : list (string * file_result) :=
  [("audio.json", Parsed (JArr [audio2]));
   ("broken.json", Unparsable);
   ("video.json", Parsed (JArr [video1]))].

Definition sample_dir : readdir_result := Files sample_files.

(** Two lists whose records share the number ["1"]. *)
Definition duplicate_dir : readdir_result :=
  Files [("a.json", Parsed (JArr [video1]));
         ("b.json", Parsed (JArr [video1']))].

(** A list with a record that lacks two fields. *)
Definition invalid_dir : readdir_result :=
  Files [("a.json", Parsed (JArr [video1; JObj audio_two_missing]))].

(** A list with a complete record that has a [hasOwnProperty] field. *)
Definition shadowing_dir : readdir_result :=
  Files [("a.json", Parsed (JArr [JObj video_shadowing]))].

(** A list with a record whose [type] is an object with a [toString]
    field. *)
Definition toString_dir : readdir_result :=
  Files [("a.json", Parsed (JArr [JObj type_with_toString]))].

(** Five records with the numbers 2, 1, 1, 2, 1: ["2"] occurs first, ["1"]
    is the first to occur a second time. *)
Definition repeated : list json := [audio2; video1; video1'; audio2; video1].

(** ** Sample disks *)

(** A field of a record, as JSON text: the key and the value between
    quotes, [separator] between them. *)
Definition field (separator key value : string) : string :=
  (chr 34 ++ key ++ chr 34 ++ separator ++ chr 34 ++ value ++ chr 34)%string.

(** The text of a file that holds the list of the one record [audio2],
    and that of a file that holds the list of the one record [video1]. *)
Definition audio_text : string :=
  ("[{" ++ field ":" "number" "2" ++ "," ++ field ":" "name" "R" ++ ","
      ++ field ":" "code" "c3" ++ "," ++ field ":" "type" "audio" ++ ","
      ++ field ":" "audio" "u" ++ "}]")%string.

Definition video_text : string :=
  ("[{" ++ field ":" "number" "1" ++ "," ++ field ":" "name" "A" ++ ","
      ++ field ":" "code" "c1" ++ "," ++ field ":" "type" "video" ++ ","
      ++ field ":" "category" "x" ++ "," ++ field ":" "playlist" "p"
      ++ "}]")%string.

(** The text of the list of [audio2] and [video1], at an indentation of
    two spaces. *)
Definition sample_output : string :=
  join (chr 10)
    ["[";
     "  {";
     ("    " ++ field ": " "number" "2" ++ ",")%string;
     ("    " ++ field ": " "name" "R" ++ ",")%string;
     ("    " ++ field ": " "code" "c3" ++ ",")%string;
     ("    " ++ field ": " "type" "audio" ++ ",")%string;
     ("    " ++ field ": " "audio" "u")%string;
     "  },";
     "  {";
     ("    " ++ field ": " "number" "1" ++ ",")%string;
     ("    " ++ field ": " "name" "A" ++ ",")%string;
     ("    " ++ field ": " "code" "c1" ++ ",")%string;
     ("    " ++ field ": " "type" "video" ++ ",")%string;
     ("    " ++ field ": " "category" "x" ++ ",")%string;
     ("    " ++ field ": " "playlist" "p")%string;
     "  }";
     "]"].

(** [JSON.parse] on the texts of the sample disks; the text of
    [broken.json] is not JSON. *)
Definition sample_parse (text : string) : option json :=
  if String.eqb text audio_text then Some (JArr [audio2])
  else if String.eqb text video_text then Some (JArr [video1])
  else if String.eqb text sample_output then Some (JArr [audio2; video1])
  else if String.eqb text "[]" then Some (JArr [])
  else None.

(** A disk whose lists directory reads as [sample_dir], without an output
    file. *)
Definition sample_disk : disk :=
  [("lists", Directory);
   ("lists/audio.json", File audio_text);
   ("lists/broken.json", File "[{");
   ("lists/video.json", File video_text)].

(** A disk with the same lists directory, with other files around it and
    an output file from before. *)
Definition sample_disk' : disk :=
  [("list.json", File "[]");
   ("lists", Directory);
   ("lists/audio.json", File audio_text);
   ("lists/broken.json", File "[{");
   ("lists/video.json", File video_text);
   ("src", Directory);
   ("src/scripts", Directory);
   ("src/scripts/generate.js", File "const fs = require")].

(** ** What the shape validator does with each item *)

Definition throws {A : Type} (r : result A) : bool :=
  match r with
  | Throw _ => true
  | Ok _ => false
  end.

(** The items on which the callback of [data.forEach] throws: [null],
    whose [type] cannot be read; an object whose [type] cannot be compared
    with ["audio"]; an object with a field named [hasOwnProperty]. *)
Definition breaks_validation (item : json) : bool :=
  match item with
  | JNull => true
  | JObj props =>
      throws (loose_eq_audio (assoc "type" props))
      || has_own "hasOwnProperty" props
  | _ => false
  end.

(** The entries an item adds to the report when the callback returns: an
    object adds [entry_of]; a boolean, a number, a string or an array has
    no field at all and is reported without a channel, for [number]. *)
Definition report_of (item : json) : list invalidItem :=
  match item with
  | JObj props => entry_of props
  | _ => [{| channel := None; missing := ["number"] |}]
  end.

(** The values that [===] compares by value. *)
Definition primitive (v : value) : bool :=
  match v with
  | Some (JArr _) | Some (JObj _) => false
  | _ => true
  end.

Definition is_null (item : json) : bool :=
  match item with
  | JNull => true
  | _ => false
  end.

(** The sum of the counts of a report. *)
Definition total_count (dups : list Dup.entry) : nat :=
  fold_right (fun d sum => Dup.count d + sum) 0 dups.

(** The ways a run can end, after the console lines of the loader, when
    the file system answers the call of [fs.writeFileSync] with the given
    [write_result]. *)
Inductive ending (data : list json) : write_result -> list event -> Prop :=
| Ends_in_catch (answer : write_result) (e : error) :
    validateItemFormat data = Throw e ->
    ending data answer [Call_validateItemFormat; Error_occurred e]
| Ends_invalid (answer : write_result) (v : validation) :
    validateItemFormat data = Ok v -> invalidItems v <> [] ->
    ending data answer
      [Call_validateItemFormat; Error_invalid_items;
       Table_invalid_items (invalidItems v)]
| Ends_duplicates (answer : write_result) (c : check) :
    validateItemFormat data = Ok {| isValid := true; invalidItems := [] |} ->
    checkForDuplicateNumber data = Ok c -> duplicates c <> [] ->
    ending data answer
      [Call_validateItemFormat; Call_checkForDuplicateNumber;
       Error_duplicates; Table_duplicates (duplicates c)]
| Ends_written :
    validateItemFormat data = Ok {| isValid := true; invalidItems := [] |} ->
    checkForDuplicateNumber data =
      Ok {| hasDuplicate := false; duplicates := [] |} ->
    ending data Write_done
      [Call_validateItemFormat; Call_checkForDuplicateNumber;
       WriteFile savePath (JSON_stringify data 2);
       Log (success (List.length data))]
| Ends_write_failed (e : error) (remains : option string) :
    validateItemFormat data = Ok {| isValid := true; invalidItems := [] |} ->
    checkForDuplicateNumber data =
      Ok {| hasDuplicate := false; duplicates := [] |} ->
    ending data (Write_failed e remains)
      [Call_validateItemFormat; Call_checkForDuplicateNumber;
       WriteFile savePath (JSON_stringify data 2);
       Error_occurred e].

(** What follows the call of [fs.writeFileSync] in the trace: the message
    of line 131 when the call returns, that of the [catch] block when it
    throws. *)
Definition after_write (data : list json) (answer : write_result) : event :=
  match answer with
  | Write_done => Log (success (List.length data))
  | Write_failed e _ => Error_occurred e
  end.

(** The data that pass both validators: every item is an object with the
    required fields of its variant as strings and without a field named
    [hasOwnProperty], and the numbers are pairwise distinct. *)
Definition accepted (data : list json) : Prop :=
  forallb satisfies_schema data = true /\
  existsb shadows_hasOwnProperty data = false /\
  NoDup (numbers data).

(** ** The validators on a heap

    The same two functions with the objects of the program in a store, so
    that what they write can be told from what they only read.  A cell
    holds an array, an object or a [Set]; a value is a primitive or a
    reference to a cell; an object literal allocates a new cell. *)

Module Heap.

Definition loc : Type := nat.

(** [Num] is a parsed number, [Int] a number that the script computes (a
    count). *)
Inductive val : Type :=
| Undefined
| Null
| Bool (b : bool)
| Num (text : string)
| Int (n : nat)
| Str (s : string)
| Ref (l : loc).

Inductive object : Type :=
| Array (elems : list val)
| Object (props : list (string * val))
| SetOf (members : list val).

Definition heap : Type := list object.

(** A computation reads and writes the heap and may throw; the heap
    survives a throw. *)
Definition M (A : Type) : Type := heap -> result A * heap.

Definition ret {A : Type} (a : A) : M A := fun h => (Ok a, h).

Definition throw {A : Type} (e : error) : M A := fun h => (Throw e, h).

Definition mbind {A B : Type} (m : M A) (k : A -> M B) : M B :=
  fun h =>
    match m h with
    | (Ok a, h') => k a h'
    | (Throw e, h') => (Throw e, h')
    end.

Notation "x <~ m ;; k" := (mbind m (fun x => k))
  (at level 61, m at next level, right associativity).

Fixpoint update (l : loc) (o : object) (h : heap) : heap :=
  match h, l with
  | [], _ => []
  | _ :: rest, 0 => o :: rest
  | x :: rest, S l' => x :: update l' o rest
  end.

Definition alloc (o : object) : M val :=
  fun h => (Ok (Ref (List.length h)), h ++ [o]).

Definition load (v : val) : M object :=
  fun h =>
    match v with
    | Ref l =>
        match nth_error h l with
        | Some o => (Ok o, h)
        | None => (Throw (TypeError "no such object"), h)
        end
    | _ => (Throw (TypeError "not an object"), h)
    end.

Definition store (l : loc) (o : object) : M unit :=
  fun h => (Ok tt, update l o h).

Fixpoint lookup (key : string) (props : list (string * val)) : val :=
  match props with
  | [] => Undefined
  | (k, v) :: rest => if String.eqb key k then v else lookup key rest
  end.

Definition owns (key : string) (props : list (string * val)) : bool :=
  existsb (fun kv => String.eqb key (fst kv)) props.

Fixpoint assign (key : string) (x : val) (props : list (string * val))
  : list (string * val) :=
  match props with
  | [] => [(key, x)]
  | (k, v) :: rest =>
      if String.eqb key k then (k, x) :: rest else (k, v) :: assign key x rest
  end.

(** [item.key], for the keys the script reads. *)
Definition get (item : val) (key : string) : M val :=
  match item with
  | Undefined | Null => throw (TypeError "Cannot read properties of null")
  | Ref l =>
      o <~ load (Ref l) ;;
      match o with
      | Object props => ret (lookup key props)
      | _ => ret Undefined
      end
  | _ => ret Undefined
  end.

(** [item.hasOwnProperty(key)] *)
Definition hasOwnProperty (item : val) (key : string) : M bool :=
  match item with
  | Undefined | Null => throw (TypeError "Cannot read properties of null")
  | Ref l =>
      o <~ load (Ref l) ;;
      match o with
      | Object props =>
          if owns "hasOwnProperty" props
          then throw (TypeError "item.hasOwnProperty is not a function")
          else ret (owns key props)
      | _ => ret false
      end
  | _ => ret false
  end.

(** [obj.key = x] *)
Definition set (obj : val) (key : string) (x : val) : M unit :=
  match obj with
  | Ref l =>
      o <~ load (Ref l) ;;
      match o with
      | Object props => store l (Object (assign key x props))
      | _ => ret tt
      end
  | _ => throw (TypeError "Cannot set properties")
  end.

(** [array.push(x)] *)
Definition push (array : val) (x : val) : M unit :=
  match array with
  | Ref l =>
      o <~ load (Ref l) ;;
      match o with
      | Array elems => store l (Array (elems ++ [x]))
      | _ => throw (TypeError "push is not a function")
      end
  | _ => throw (TypeError "push is not a function")
  end.

(** [===] and SameValueZero: primitives by value, cells by reference. *)
Definition same_value (a b : val) : bool :=
  match a, b with
  | Undefined, Undefined => true
  | Null, Null => true
  | Bool x, Bool y => Bool.eqb x y
  | Num x, Num y => String.eqb x y
  | Int x, Int y => Nat.eqb x y
  | Str x, Str y => String.eqb x y
  | Ref x, Ref y => Nat.eqb x y
  | _, _ => false
  end.

(** [ToString], reading through references; [fuel] bounds the nesting,
    and parsed values nest no deeper than the heap has cells. *)
Fixpoint to_string (fuel : nat) (h : heap) (v : val) : result string :=
  match v with
  | Undefined => Ok "undefined"
  | Null => Ok "null"
  | Bool true => Ok "true"
  | Bool false => Ok "false"
  | Num text => Ok text
  | Int n => Ok (decimal n)
  | Str s => Ok s
  | Ref l =>
      match fuel with
      | 0 => Throw (TypeError "nesting too deep")
      | S fuel' =>
          match nth_error h l with
          | Some (Array elems) =>
              (fix join (l : list val) : result string :=
                 match l with
                 | [] => Ok ""
                 | x :: rest =>
                     s <- match x with
                          | Null | Undefined => Ok ""
                          | _ => to_string fuel' h x
                          end ;;
                     match rest with
                     | [] => Ok s
                     | _ => r <- join rest ;; Ok (s ++ "," ++ r)%string
                     end
                 end) elems
          | Some (Object props) =>
              if owns "toString" props
              then Throw (TypeError "Cannot convert object to primitive value")
              else Ok "[object Object]"
          | Some (SetOf _) => Ok "[object Set]"
          | None => Throw (TypeError "no such object")
          end
      end
  end.

(** [v == "audio"] *)
Definition loose_eq_audio (v : val) : M bool :=
  fun h =>
    match v with
    | Str s => (Ok (String.eqb s "audio"), h)
    | Ref l =>
        (p <- to_string (List.length h) h (Ref l) ;; Ok (String.eqb p "audio"), h)
    | _ => (Ok false, h)
    end.

Definition typeof_string (v : val) : bool :=
  match v with
  | Str _ => true
  | _ => false
  end.

(** [currentRequiredKeys.every(callback)], lines 62-68; [missingKeys] is
    the array the callback pushes on. *)
Fixpoint every (item : val) (keys : list string) (missingKeys : val)
  : M bool :=
  match keys with
  | [] => ret true
  | key :: rest =>
      own <~ hasOwnProperty item key ;;
      hasKey <~ (if own then v <~ get item key ;; ret (typeof_string v)
                 else ret false) ;;
      _ <~ (if negb hasKey then push missingKeys (Str key) else ret tt) ;;
      if hasKey then every item rest missingKeys else ret false
  end.

(** The callback of [data.forEach], lines 55-73. *)
Definition validateItem (invalidItems : val) (item : val) : M unit :=
  missingKeys <~ alloc (Array []) ;;
  type <~ get item "type" ;;
  audio <~ loose_eq_audio type ;;
  let currentRequiredKeys :=
    if audio then audioRequiredKeys else videoRequiredKeys in
  hasAllKeys <~ every item currentRequiredKeys missingKeys ;;
  if negb hasAllKeys then
    number <~ get item "number" ;;
    entry <~ alloc (Object [("channel", number); ("missing", missingKeys)]) ;;
    push invalidItems entry
  else ret tt.

(** [data.forEach(callback)]: the length is read once, each element is
    read from the array when its turn comes. *)
Fixpoint forEach (data : val) (callback : val -> M unit) (k len : nat)
  : M unit :=
  match len with
  | 0 => ret tt
  | S len' =>
      o <~ load data ;;
      match o with
      | Array elems =>
          match nth_error elems k with
          | Some item =>
              _ <~ callback item ;; forEach data callback (S k) len'
          | None => forEach data callback (S k) len'
          end
      | _ => throw (TypeError "data.forEach is not a function")
      end
  end.

Definition length_of (array : val) : M nat :=
  o <~ load array ;;
  match o with
  | Array elems => ret (List.length elems)
  | _ => ret 0
  end.

(** Returns the object [{ isValid, invalidItems }]. *)
Definition validateItemFormat (data : val) : M val :=
  invalidItems <~ alloc (Array []) ;;
  len <~ length_of data ;;
  _ <~ forEach data (validateItem invalidItems) 0 len ;;
  n <~ length_of invalidItems ;;
  alloc (Object [("isValid", Bool (Nat.eqb n 0));
                 ("invalidItems", invalidItems)]).

(** [existing.has(x)] and [existing.add(x)] *)
Definition has (existing : val) (x : val) : M bool :=
  o <~ load existing ;;
  match o with
  | SetOf members => ret (existsb (same_value x) members)
  | _ => throw (TypeError "existing.has is not a function")
  end.

Definition add (existing : val) (x : val) : M unit :=
  match existing with
  | Ref l =>
      o <~ load (Ref l) ;;
      match o with
      | SetOf members =>
          if existsb (same_value x) members then ret tt
          else store l (SetOf (members ++ [x]))
      | _ => throw (TypeError "existing.add is not a function")
      end
  | _ => throw (TypeError "existing.add is not a function")
  end.

(** [elems.find((d) => d.channel === number)] *)
Fixpoint find_in (elems : list val) (number : val) : M val :=
  match elems with
  | [] => ret Undefined
  | d :: rest =>
      c <~ get d "channel" ;;
      if same_value c number then ret d else find_in rest number
  end.

Definition find (duplicates : val) (number : val) : M val :=
  o <~ load duplicates ;;
  match o with
  | Array elems => find_in elems number
  | _ => throw (TypeError "duplicates.find is not a function")
  end.

(** [if (v)] *)
Definition truthy (v : val) : bool :=
  match v with
  | Undefined | Null => false
  | Bool b => b
  | Num text => negb (String.eqb text "0")
  | Int n => negb (Nat.eqb n 0)
  | Str s => negb (String.eqb s "")
  | Ref _ => true
  end.

(** [c + 1] for a count [c]; the counts are the numbers that line 96
    and line 94 store, so no other case arises. *)
Definition plus_one (c : val) : val :=
  match c with
  | Int n => Int (n + 1)
  | other => other
  end.

(** The body of the [for ... of] loop, lines 90-100. *)
Definition checkItem (existing duplicates : val) (item : val) : M unit :=
  number <~ get item "number" ;;
  seen <~ has existing number ;;
  if seen then
    duplicateEntry <~ find duplicates number ;;
    if truthy duplicateEntry then
      c <~ get duplicateEntry "count" ;;
      set duplicateEntry "count" (plus_one c)
    else
      entry <~ alloc (Object [("channel", number); ("count", Int 2)]) ;;
      push duplicates entry
  else add existing number.

(** [for (const item of data)]: the iterator reads the array at each
    step and stops at its end; [fuel] is the length at the start. *)
Fixpoint for_of (data : val) (body : val -> M unit) (k fuel : nat)
  : M unit :=
  match fuel with
  | 0 => ret tt
  | S fuel' =>
      o <~ load data ;;
      match o with
      | Array elems =>
          match nth_error elems k with
          | Some item => _ <~ body item ;; for_of data body (S k) fuel'
          | None => ret tt
          end
      | _ => throw (TypeError "data is not iterable")
      end
  end.

(** Returns the object [{ hasDuplicate, duplicates }]. *)
Definition checkForDuplicateNumber (data : val) : M val :=
  existing <~ alloc (SetOf []) ;;
  duplicates <~ alloc (Array []) ;;
  len <~ length_of data ;;
  _ <~ for_of data (checkItem existing duplicates) 0 len ;;
  n <~ length_of duplicates ;;
  alloc (Object [("hasDuplicate", Bool (Nat.ltb 0 n));
                 ("duplicates", duplicates)]).

(** [JSON.parse]: the cells of a parsed value, and the value itself. *)
Fixpoint parse (v : json) (h : heap) : val * heap :=
  match v with
  | JNull => (Null, h)
  | JBool b => (Bool b, h)
  | JNum text => (Num text, h)
  | JStr s => (Str s, h)
  | JArr elems =>
      let '(vals, h') :=
        (fix parse_all (l : list json) (h : heap) : list val * heap :=
           match l with
           | [] => ([], h)
           | x :: rest =>
               let '(v, h1) := parse x h in
               let '(vs, h2) := parse_all rest h1 in
               (v :: vs, h2)
           end) elems h in
      (Ref (List.length h'), h' ++ [Array vals])
  | JObj props =>
      let '(vals, h') :=
        (fix parse_props (l : list (string * json)) (h : heap)
           : list (string * val) * heap :=
           match l with
           | [] => ([], h)
           | (k, x) :: rest =>
               let '(v, h1) := parse x h in
               let '(vs, h2) := parse_props rest h1 in
               ((k, v) :: vs, h2)
           end) props h in
      (Ref (List.length h'), h' ++ [Object vals])
  end.

(** Every cell below [n] is in [h'] as it is in [h]. *)
Definition unchanged (n : nat) (h h' : heap) : Prop :=
  forall l, l < n -> nth_error h' l = nth_error h l.

(** A value that is no reference to a cell below [n]. *)
Definition fresh (n : nat) (v : val) : Prop :=
  match v with
  | Ref l => n <= l
  | _ => True
  end.

(** If the cell [ld] is an array, its elements are fresh. *)
Definition fresh_array (n : nat) (ld : loc) (h : heap) : Prop :=
  forall elems, nth_error h ld = Some (Array elems) -> Forall (fresh n) elems.

(** The computation [m] writes to no cell below [n], keeps the array at
    [ld] fresh, and returns a value that satisfies [Q]. *)
Definition keeps (n : nat) (ld : loc) {A : Type} (m : M A) (Q : A -> Prop)
  : Prop :=
  forall h,
    n <= List.length h -> fresh_array n ld h ->
    n <= List.length (snd (m h)) /\
    unchanged n h (snd (m h)) /\
    fresh_array n ld (snd (m h)) /\
    forall a, fst (m h) = Ok a -> Q a.

(** The computation [m] only reads. *)
Definition reads {A : Type} (m : M A) : Prop := forall h, snd (m h) = h.

End Heap.

(** * Properties *)

(** ** The shape validator *)

Section ShapeValidator.

Variable props : list (string * json).
Hypothesis builtin : has_own "hasOwnProperty" props = false.

Lemma hasKey_present (key : string) :
  hasKey (JObj props) key = Ok (present props key).
Proof using builtin.
  unfold hasKey, hasOwnProperty, present. rewrite builtin. simpl.
  destruct (has_own key props); reflexivity.
Qed.

(** [every] stops at the first key that is not present. *)
Lemma every_first_missing (keys acc : list string) :
  every (JObj props) keys acc =
  Ok match List.find (fun key => negb (present props key)) keys with
     | Some key => (false, acc ++ [key])
     | None => (true, acc)
     end.
Proof using builtin.
  induction keys as [|key rest IH]; simpl; [reflexivity|].
  rewrite hasKey_present. simpl.
  destruct (present props key); simpl; [apply IH | reflexivity].
Qed.

Lemma every_all_present (keys : list string) :
  forallb (present props) keys = true ->
  every (JObj props) keys [] = Ok (true, []).
Proof using builtin.
  intros Hall. rewrite every_first_missing.
  destruct (List.find _ keys) as [key|] eqn:Hfind; [|reflexivity].
  apply find_some in Hfind. destruct Hfind as [Hin Hneg].
  rewrite forallb_forall in Hall. rewrite (Hall _ Hin) in Hneg. discriminate.
Qed.

End ShapeValidator.

(** When [type] is a string the loose comparison is the strict one. *)
Lemma currentRequiredKeys_string_type (props : list (string * json)) (s : string) :
  assoc "type" props = Some (JStr s) ->
  currentRequiredKeys (JObj props) = Ok (requiredKeys props).
Proof.
  intros Htype. unfold currentRequiredKeys, requiredKeys, is_audio. simpl.
  rewrite Htype. reflexivity.
Qed.

(** When [type] is absent, [null], a boolean or a number the record is a
    video record. *)
Lemma currentRequiredKeys_primitive_type (props : list (string * json)) :
  match assoc "type" props with
  | Some (JArr _) | Some (JObj _) => False
  | _ => True
  end ->
  currentRequiredKeys (JObj props) = Ok (requiredKeys props).
Proof.
  unfold currentRequiredKeys, requiredKeys, is_audio. simpl.
  destruct (assoc "type" props) as [[ | b | t | s | l | p]|]; simpl;
    intros H; try reflexivity; contradiction.
Qed.

Lemma present_string (props : list (string * json)) (key : string) :
  present props key = true -> exists s, assoc key props = Some (JStr s).
Proof.
  unfold present, typeof_string. intros H. apply andb_prop in H.
  destruct H as [_ H].
  destruct (assoc key props) as [[ | b | t | s | l | p]|]; try discriminate.
  exists s. reflexivity.
Qed.

Lemma assoc_has_own (props : list (string * json)) (key : string) (v : json) :
  assoc key props = Some v -> has_own key props = true.
Proof.
  induction props as [|[k x] rest IH]; simpl; [discriminate|].
  destruct (String.eqb key k); [reflexivity | exact IH].
Qed.

(** A record that satisfies its schema and does not shadow
    [hasOwnProperty] adds nothing to the report. *)
Lemma validateItem_valid (item : json) (invalid : list invalidItem) :
  satisfies_schema item = true ->
  shadows_hasOwnProperty item = false ->
  validateItem item invalid = Ok invalid.
Proof.
  destruct item as [ | b | t | s | l | props]; simpl; try discriminate.
  intros Hall Hown. unfold validateItem.
  assert (Htype : exists s, assoc "type" props = Some (JStr s)).
  { apply present_string. rewrite forallb_forall in Hall. apply Hall.
    unfold requiredKeys. destruct (is_audio props); simpl; tauto. }
  destruct Htype as [s Htype].
  rewrite (currentRequiredKeys_string_type _ _ Htype). simpl.
  rewrite (every_all_present props Hown _ Hall). reflexivity.
Qed.

Lemma forEach_validateItem_valid (data : list json) (invalid : list invalidItem) :
  forallb satisfies_schema data = true ->
  existsb shadows_hasOwnProperty data = false ->
  forEach_validateItem data invalid = Ok invalid.
Proof.
  induction data as [|item rest IH]; simpl; [reflexivity|].
  intros Hall Hown. apply andb_prop in Hall. destruct Hall as [H1 H2].
  apply orb_false_elim in Hown. destruct Hown as [H3 H4].
  rewrite (validateItem_valid _ _ H1 H3). simpl. apply IH; assumption.
Qed.

(** What passing the shape validator means for one item. *)
Lemma validateItem_passes (item : json) (invalid invalid' : list invalidItem) :
  validateItem item invalid = Ok invalid' ->
  List.length invalid' = List.length invalid ->
  satisfies_schema item = true /\ shadows_hasOwnProperty item = false.
Proof.
  unfold validateItem, currentRequiredKeys, bind.
  destruct (Get item "type") as [type|e] eqn:Hget; [|discriminate].
  destruct (loose_eq_audio type) as [audio|e] eqn:Hloose; [|discriminate].
  destruct (every item _ []) as [[hasAll missingKeys]|e] eqn:Hevery; [|discriminate].
  destruct hasAll.
  2:{ destruct (Get item "number"); [|discriminate].
      intros Heq Hlen. injection Heq as <-. rewrite length_app in Hlen.
      simpl in Hlen. lia. }
  intros _ _.
  destruct item as [ | b | t | s | l | props].
  - discriminate.
  - destruct audio; simpl in Hevery; discriminate.
  - destruct audio; simpl in Hevery; discriminate.
  - destruct audio; simpl in Hevery; discriminate.
  - destruct audio; simpl in Hevery; discriminate.
  - simpl. destruct (has_own "hasOwnProperty" props) eqn:Hown.
    { destruct audio; simpl in Hevery; unfold hasKey, hasOwnProperty in Hevery;
        rewrite Hown in Hevery; discriminate. }
    split; [|reflexivity].
    rewrite (every_first_missing props Hown) in Hevery.
    assert (Hkeys : forallb (present props)
                      (if audio then audioRequiredKeys else videoRequiredKeys) = true).
    { destruct (List.find _ _) as [key|] eqn:Hfind; [discriminate|].
      apply forallb_forall. intros key Hin.
      pose proof (find_none _ _ Hfind key Hin) as Hneg. simpl in Hneg.
      destruct (present props key); [reflexivity | discriminate]. }
    assert (Htype : exists s, assoc "type" props = Some (JStr s)).
    { apply present_string. rewrite forallb_forall in Hkeys. apply Hkeys.
      destruct audio; simpl; tauto. }
    destruct Htype as [s Htype].
    simpl in Hget. injection Hget as <-. rewrite Htype in Hloose. simpl in Hloose.
    injection Hloose as <-.
    unfold requiredKeys, is_audio. rewrite Htype. exact Hkeys.
Qed.

Lemma validateItem_length (item : json) (invalid invalid' : list invalidItem) :
  validateItem item invalid = Ok invalid' ->
  List.length invalid <= List.length invalid'.
Proof.
  unfold validateItem, bind.
  destruct (currentRequiredKeys item); [|discriminate].
  destruct (every item _ []) as [[hasAll missingKeys]|e]; [|discriminate].
  destruct hasAll.
  - intros H. injection H as <-. lia.
  - destruct (Get item "number"); [|discriminate].
    intros H. injection H as <-. rewrite length_app. lia.
Qed.

Lemma forEach_validateItem_length (data : list json) (invalid invalid' : list invalidItem) :
  forEach_validateItem data invalid = Ok invalid' ->
  List.length invalid <= List.length invalid'.
Proof.
  revert invalid. induction data as [|item rest IH]; simpl; intros invalid.
  - intros H. injection H as <-. lia.
  - unfold bind. destruct (validateItem item invalid) as [mid|e] eqn:Hitem; [|discriminate].
    intros H. apply IH in H. apply validateItem_length in Hitem. lia.
Qed.

Lemma forEach_validateItem_passes (data : list json) (invalid invalid' : list invalidItem) :
  forEach_validateItem data invalid = Ok invalid' ->
  List.length invalid' = List.length invalid ->
  forallb satisfies_schema data = true /\
  existsb shadows_hasOwnProperty data = false.
Proof.
  revert invalid. induction data as [|item rest IH]; simpl; intros invalid.
  - auto.
  - unfold bind. destruct (validateItem item invalid) as [mid|e] eqn:Hitem; [|discriminate].
    intros Hrest Hlen.
    pose proof (validateItem_length _ _ _ Hitem) as L1.
    pose proof (forEach_validateItem_length _ _ _ Hrest) as L2.
    destruct (validateItem_passes _ _ _ Hitem) as [H1 H2]; [lia|].
    destruct (IH _ Hrest) as [H3 H4]; [lia|].
    rewrite H1, H2, H3, H4. auto.
Qed.

(** ** The uniqueness validator *)

Lemma same_value_eq (a b : value) : same_value a b = true -> a = b.
Proof.
  destruct a as [[ | x | x | x | x | x]|], b as [[ | y | y | y | y | y]|];
    simpl; try discriminate; try reflexivity; intros H.
  - apply Bool.eqb_prop in H. congruence.
  - apply String.eqb_eq in H. congruence.
  - apply String.eqb_eq in H. congruence.
Qed.

Lemma same_value_sym (a b : value) : same_value a b = same_value b a.
Proof.
  destruct a as [[ | x | x | x | x | x]|], b as [[ | y | y | y | y | y]|];
    simpl; try reflexivity.
  - destruct x, y; reflexivity.
  - apply String.eqb_sym.
  - apply String.eqb_sym.
Qed.

Lemma same_value_refl_l (a b : value) :
  same_value a b = true -> same_value a a = true.
Proof.
  intros H. pose proof (same_value_eq _ _ H) as E. subst b. exact H.
Qed.

Lemma same_value_neq (a b : value) : a <> b -> same_value a b = false.
Proof.
  intros N. destruct (same_value a b) eqn:E; [|reflexivity].
  apply same_value_eq in E. contradiction.
Qed.

Lemma occurrences_snoc (v n : value) (seen : list value) :
  occurrences v (seen ++ [n]) =
  occurrences v seen + (if same_value n v then 1 else 0).
Proof.
  unfold occurrences. rewrite filter_app, length_app. simpl.
  destruct (same_value n v); reflexivity.
Qed.

Lemma occurrences_snoc_other (v n : value) (seen : list value) :
  v <> n -> occurrences v (seen ++ [n]) = occurrences v seen.
Proof.
  intros N. rewrite occurrences_snoc, same_value_neq; [lia|congruence].
Qed.

Lemma occurrences_snoc_same (n : value) (seen : list value) :
  same_value n n = true ->
  occurrences n (seen ++ [n]) = S (occurrences n seen).
Proof. intros R. rewrite occurrences_snoc, R. lia. Qed.

(** A value that does not equal itself is an array or an object: it occurs
    nowhere. *)
Lemma occurrences_irreflexive (v : value) (seen : list value) :
  same_value v v = false -> occurrences v seen = 0.
Proof.
  intros R. unfold occurrences. induction seen as [|n rest IH]; simpl; [reflexivity|].
  destruct (same_value n v) eqn:E; [|exact IH].
  pose proof (same_value_eq _ _ E) as ->. congruence.
Qed.

(** Where the occurrence number [k] of [v] lies in a list and in its
    extensions. *)
Lemma occurrence_app (k : nat) (v : value) (seen more : list value) :
  occurrence k v (seen ++ more) =
  if Nat.ltb k (occurrences v seen) then occurrence k v seen
  else List.length seen + occurrence (k - occurrences v seen) v more.
Proof.
  revert k. induction seen as [|n rest IH]; intros k; simpl.
  - unfold occurrences. simpl. rewrite Nat.sub_0_r. reflexivity.
  - unfold occurrences in *. simpl. destruct (same_value n v); simpl.
    + destruct k as [|k']; [reflexivity|]. rewrite IH.
      change (Nat.ltb (S k') (S ?m)) with (Nat.ltb k' m).
      destruct (Nat.ltb k' _); simpl; reflexivity.
    + rewrite IH. destruct (Nat.ltb k _); simpl; reflexivity.
Qed.

Lemma occurrence_bound (k : nat) (v : value) (seen : list value) :
  k < occurrences v seen -> occurrence k v seen < List.length seen.
Proof.
  revert k. unfold occurrences.
  induction seen as [|n rest IH]; intros k; simpl; [lia|].
  destruct (same_value n v); simpl.
  - destruct k as [|k']; [lia|]. intros H. apply Nat.succ_lt_mono in H.
    apply IH in H. lia.
  - intros H. apply IH in H. lia.
Qed.

Lemma second_occurrence_stable (v n : value) (seen : list value) :
  2 <= occurrences v seen ->
  second_occurrence v (seen ++ [n]) = second_occurrence v seen.
Proof.
  intros H. unfold second_occurrence. rewrite occurrence_app.
  destruct (Nat.ltb_spec 1 (occurrences v seen)); [reflexivity | lia].
Qed.

Lemma second_occurrence_new (n : value) (seen : list value) :
  same_value n n = true -> occurrences n seen = 1 ->
  second_occurrence n (seen ++ [n]) = List.length seen.
Proof.
  intros R H. unfold second_occurrence. rewrite occurrence_app, H. simpl.
  rewrite R. lia.
Qed.

Lemma StronglySorted_snoc (l : list nat) (m : nat) :
  StronglySorted lt l -> Forall (fun x => x < m) l ->
  StronglySorted lt (l ++ [m]).
Proof.
  induction 1 as [|a l Hs IH Ha]; intros Hm; simpl.
  - constructor; constructor.
  - inversion Hm as [|? ? Ham Hlm]; subst. constructor.
    + apply IH. exact Hlm.
    + apply Forall_app. split; [exact Ha | constructor; [exact Ham | constructor]].
Qed.

Lemma NoDup_snoc (A : Type) (l : list A) (x : A) :
  NoDup l -> ~ In x l -> NoDup (l ++ [x]).
Proof.
  induction 1 as [|a l Ha Hl IH]; simpl; intros Hx.
  - constructor; [tauto | constructor].
  - constructor.
    + rewrite in_app_iff. simpl. intros [H | [H | []]]; [tauto|]. subst. tauto.
    + apply IH. tauto.
Qed.

(** [find] gives the position of an entry for the number, if there is
    one. *)
Lemma find_None (n : value) (dups : list Dup.entry) :
  find n dups = None ->
  Forall (fun d => same_value (Dup.channel d) n = false) dups.
Proof.
  induction dups as [|d rest IH]; simpl; [constructor|].
  destruct (same_value (Dup.channel d) n) eqn:E; [discriminate|].
  destruct (find n rest); [discriminate|]. intros _. constructor; auto.
Qed.

Lemma find_Some (n : value) (dups : list Dup.entry) (i : nat) :
  find n dups = Some i -> In n (map Dup.channel dups).
Proof.
  revert i. induction dups as [|d rest IH]; simpl; intros i; [discriminate|].
  destruct (same_value (Dup.channel d) n) eqn:E.
  - intros _. left. apply same_value_eq. exact E.
  - destruct (find n rest) as [j|]; [|discriminate]. intros _. right. eapply IH. reflexivity.
Qed.

Lemma increment_channels (i : nat) (dups : list Dup.entry) :
  map Dup.channel (increment i dups) = map Dup.channel dups.
Proof.
  revert i. induction dups as [|d rest IH]; intros [|j]; simpl; try reflexivity.
  rewrite IH. reflexivity.
Qed.

(** [increment] at the position [find] gives adds one to the count of the
    number and leaves the other counts. *)
Lemma increment_counts (f g : value -> nat) (n : value) :
  same_value n n = true ->
  g n = f n + 1 ->
  (forall c, c <> n -> g c = f c) ->
  forall (dups : list Dup.entry) (i : nat),
    find n dups = Some i ->
    NoDup (map Dup.channel dups) ->
    Forall (fun d => Dup.count d = f (Dup.channel d)) dups ->
    Forall (fun d => Dup.count d = g (Dup.channel d)) (increment i dups).
Proof.
  intros R Hn Hother. induction dups as [|d rest IH]; simpl; intros i Hfind Hnodup Hcount.
  - discriminate.
  - inversion Hnodup as [|? ? Hnotin Hrest]; subst.
    inversion Hcount as [|? ? Hd Hcrest]; subst.
    destruct (same_value (Dup.channel d) n) eqn:E.
    + injection Hfind as <-. apply same_value_eq in E. constructor.
      * simpl. rewrite E, Hn, <- E. rewrite Hd. reflexivity.
      * rewrite Forall_forall in *. intros x Hx. rewrite (Hcrest x Hx).
        symmetry. apply Hother. intros Heq. apply Hnotin. rewrite E, <- Heq.
        apply in_map. exact Hx.
    + destruct (find n rest) as [j|] eqn:Hj; [|discriminate].
      injection Hfind as <-. simpl. constructor.
      * rewrite Hd. symmetry. apply Hother. intros Heq. rewrite Heq in E. congruence.
      * apply IH; auto.
Qed.

Section LoopStep.

Variables (seen existing : list value) (dups : list Dup.entry).
Hypothesis state : counted seen existing dups.
Variable n : value.

Lemma counted_channel_twice (d : Dup.entry) :
  In d dups -> 2 <= occurrences (Dup.channel d) seen.
Proof using state.
  intros Hin. apply (counted_twice _ _ _ state). apply in_map. exact Hin.
Qed.

Lemma counted_order_stable :
  map (fun d => second_occurrence (Dup.channel d) (seen ++ [n])) dups =
  map (fun d => second_occurrence (Dup.channel d) seen) dups.
Proof using state.
  apply map_ext_in. intros d Hin. apply second_occurrence_stable.
  apply counted_channel_twice. exact Hin.
Qed.

(** The number has not occurred: [existing.add(item.number)]. *)
Lemma counted_add :
  Set_has existing n = false ->
  counted (seen ++ [n]) (existing ++ [n]) dups.
Proof using state.
  intros Hnew.
  assert (Hzero : occurrences n seen = 0).
  { destruct (occurrences n seen) eqn:E; [reflexivity|].
    assert (Set_has existing n = true) by (apply (counted_existing _ _ _ state); lia).
    congruence. }
  assert (Hkeep : forall v, 2 <= occurrences v seen ->
                            occurrences v (seen ++ [n]) = occurrences v seen).
  { intros v Hv. apply occurrences_snoc_other. intros ->. lia. }
  constructor.
  - intros v. unfold Set_has. rewrite existsb_app. simpl.
    rewrite orb_false_r, occurrences_snoc, (same_value_sym v n).
    fold (Set_has existing v).
    destruct (counted_existing _ _ _ state v) as [H1 H2].
    destruct (Set_has existing v); simpl.
    + split; [intros _ | reflexivity]. specialize (H1 eq_refl). lia.
    + destruct (same_value n v); split; intros H;
        first [reflexivity | discriminate | apply H2; lia | lia].
  - pose proof (counted_count _ _ _ state) as H. rewrite Forall_forall in *.
    intros d Hin. rewrite (H d Hin). symmetry. apply Hkeep.
    apply counted_channel_twice. exact Hin.
  - exact (counted_once _ _ _ state).
  - intros v. rewrite (counted_twice _ _ _ state v), occurrences_snoc.
    destruct (same_value n v) eqn:E; [|lia].
    apply same_value_eq in E. subst v. lia.
  - rewrite counted_order_stable. exact (counted_order _ _ _ state).
Qed.

(** The number has occurred and has an entry: [duplicateEntry.count += 1]. *)
Lemma counted_increment (i : nat) :
  Set_has existing n = true ->
  find n dups = Some i ->
  counted (seen ++ [n]) existing (increment i dups).
Proof using state.
  intros Hseen Hfind.
  assert (R : same_value n n = true).
  { unfold Set_has in Hseen. apply existsb_exists in Hseen.
    destruct Hseen as [m [_ Hm]]. exact (same_value_refl_l _ _ Hm). }
  pose proof (find_Some _ _ _ Hfind) as Hin.
  pose proof (proj1 (counted_twice _ _ _ state n) Hin) as Htwice.
  constructor.
  - intros v. rewrite (counted_existing _ _ _ state v), occurrences_snoc.
    destruct (same_value n v) eqn:E; [|lia].
    apply same_value_eq in E. subst v. lia.
  - apply (increment_counts (fun c => occurrences c seen)
             (fun c => occurrences c (seen ++ [n])) n R).
    + rewrite occurrences_snoc_same by exact R. lia.
    + intros c Hc. apply occurrences_snoc_other. exact Hc.
    + exact Hfind.
    + exact (counted_once _ _ _ state).
    + exact (counted_count _ _ _ state).
  - rewrite increment_channels. exact (counted_once _ _ _ state).
  - intros v. rewrite increment_channels, (counted_twice _ _ _ state v), occurrences_snoc.
    destruct (same_value n v) eqn:E; [|lia].
    apply same_value_eq in E. subst v. lia.
  - assert (Hmap : map (fun d => second_occurrence (Dup.channel d) (seen ++ [n]))
                     (increment i dups) =
                   map (fun d => second_occurrence (Dup.channel d) seen) dups).
    { rewrite <- (map_map Dup.channel (fun c => second_occurrence c (seen ++ [n]))).
      rewrite increment_channels, map_map. apply counted_order_stable. }
    rewrite Hmap. exact (counted_order _ _ _ state).
Qed.

(** The number has occurred and has no entry:
    [duplicates.push({ channel: item.number, count: 2 })]. *)
Lemma counted_push :
  Set_has existing n = true ->
  find n dups = None ->
  counted (seen ++ [n]) existing
    (dups ++ [{| Dup.channel := n; Dup.count := 2 |}]).
Proof using state.
  intros Hseen Hfind.
  assert (R : same_value n n = true).
  { unfold Set_has in Hseen. apply existsb_exists in Hseen.
    destruct Hseen as [m [_ Hm]]. exact (same_value_refl_l _ _ Hm). }
  pose proof (find_None _ _ Hfind) as Hnone. rewrite Forall_forall in Hnone.
  assert (Hnotin : ~ In n (map Dup.channel dups)).
  { intros Hin. apply in_map_iff in Hin. destruct Hin as [d [Hd Hin]].
    specialize (Hnone d Hin). rewrite Hd in Hnone. congruence. }
  assert (Hone : occurrences n seen = 1).
  { pose proof (proj1 (counted_existing _ _ _ state n) Hseen).
    pose proof (counted_twice _ _ _ state n) as H2.
    destruct (Nat.leb_spec 2 (occurrences n seen)); [|lia].
    exfalso. apply Hnotin. apply H2. assumption. }
  constructor.
  - intros v. rewrite (counted_existing _ _ _ state v), occurrences_snoc.
    destruct (same_value n v) eqn:E; [|lia].
    apply same_value_eq in E. subst v. lia.
  - apply Forall_app. split.
    + pose proof (counted_count _ _ _ state) as H. rewrite Forall_forall in *.
      intros d Hin. rewrite (H d Hin). symmetry. apply occurrences_snoc_other.
      intros Heq. apply Hnotin. rewrite <- Heq. apply in_map. exact Hin.
    + constructor; [|constructor]. simpl.
      rewrite occurrences_snoc_same by exact R. lia.
  - rewrite map_app. simpl. apply NoDup_snoc; [exact (counted_once _ _ _ state) | exact Hnotin].
  - intros v. rewrite map_app, in_app_iff, (counted_twice _ _ _ state v), occurrences_snoc.
    simpl. destruct (same_value n v) eqn:E.
    + apply same_value_eq in E. subst v. split; [lia | auto].
    + split; [intros [H | [H | []]] | intros H; left; lia]; [lia|].
      subst v. congruence.
  - rewrite map_app. simpl. rewrite counted_order_stable.
    rewrite (second_occurrence_new _ _ R Hone).
    apply StronglySorted_snoc; [exact (counted_order _ _ _ state)|].
    apply Forall_forall. intros x Hx. apply in_map_iff in Hx.
    destruct Hx as [d [<- Hin]]. apply occurrence_bound.
    pose proof (counted_channel_twice d Hin). lia.
Qed.

End LoopStep.

Lemma counted_start : counted [] [] [].
Proof.
  constructor; simpl.
  - intros v. unfold occurrences. simpl. split; [discriminate | lia].
  - constructor.
  - constructor.
  - intros v. unfold occurrences. simpl. split; [tauto | lia].
  - constructor.
Qed.

Lemma Get_number (item : json) :
  item <> JNull -> Get item "number" = Ok (number_of item).
Proof.
  destruct item; simpl; intros H; try reflexivity. exfalso. apply H. reflexivity.
Qed.

(** The loop runs to its end on a collection without [null] and keeps
    the counts. *)
Lemma for_of_counted (data : list json) :
  ~ In JNull data ->
  forall (seen existing : list value) (dups : list Dup.entry),
    counted seen existing dups ->
    exists existing' dups',
      for_of data existing dups = Ok dups' /\
      counted (seen ++ numbers data) existing' dups'.
Proof.
  induction data as [|item rest IH]; intros Hnull seen existing dups Hstate.
  - exists existing, dups. simpl. rewrite app_nil_r. auto.
  - simpl in Hnull.
    change (numbers (item :: rest)) with ([number_of item] ++ numbers rest).
    rewrite app_assoc. simpl for_of.
    rewrite Get_number by (intros E; apply Hnull; left; congruence). simpl.
    assert (Hrest : ~ In JNull rest) by tauto.
    destruct (Set_has existing (number_of item)) eqn:Hseen.
    + destruct (find (number_of item) dups) as [i|] eqn:Hfind.
      * apply (IH Hrest). apply counted_increment; assumption.
      * apply (IH Hrest). apply counted_push; assumption.
    + apply (IH Hrest). apply counted_add; assumption.
Qed.

Lemma checkForDuplicateNumber_counted (data : list json) :
  ~ In JNull data ->
  exists existing dups,
    checkForDuplicateNumber data =
      Ok {| hasDuplicate := Nat.ltb 0 (List.length dups); duplicates := dups |} /\
    counted (numbers data) existing dups.
Proof.
  intros Hnull.
  destruct (for_of_counted data Hnull [] [] [] counted_start)
    as [existing [dups [Hrun Hstate]]].
  exists existing, dups. unfold checkForDuplicateNumber. rewrite Hrun. auto.
Qed.

Lemma occurrences_absent (v : value) (ns : list value) :
  ~ In v ns -> occurrences v ns = 0.
Proof.
  unfold occurrences. induction ns as [|n rest IH]; simpl; intros H; [reflexivity|].
  destruct (same_value n v) eqn:E.
  - apply same_value_eq in E. tauto.
  - apply IH. tauto.
Qed.

Lemma occurrences_NoDup (v : value) (ns : list value) :
  NoDup ns -> occurrences v ns <= 1.
Proof.
  induction 1 as [|n rest Hn Hrest IH].
  - unfold occurrences. simpl. lia.
  - unfold occurrences in *. simpl. destruct (same_value n v) eqn:E; [|exact IH].
    apply same_value_eq in E. subst v. simpl.
    pose proof (occurrences_absent n rest Hn) as H0. unfold occurrences in H0. lia.
Qed.

(** Pairwise distinct numbers give an empty report. *)
Lemma checkForDuplicateNumber_distinct (data : list json) :
  ~ In JNull data -> NoDup (numbers data) ->
  checkForDuplicateNumber data = Ok {| hasDuplicate := false; duplicates := [] |}.
Proof.
  intros Hnull Hdistinct.
  destruct (checkForDuplicateNumber_counted data Hnull)
    as [existing [dups [Hrun Hstate]]].
  destruct dups as [|d rest]; [exact Hrun|].
  pose proof (proj1 (counted_twice _ _ _ Hstate (Dup.channel d)) (or_introl eq_refl)).
  pose proof (occurrences_NoDup (Dup.channel d) _ Hdistinct). lia.
Qed.

(** ** The loader *)

(** What one directory entry adds to the merged data. *)
Lemma forEach_file_app (files : list (string * file_result))
  (mergedData : list json) (log : list event) :
  forEach_file files mergedData log =
  (mergedData ++ fst (forEach_file files [] []),
   log ++ snd (forEach_file files [] [])).
Proof.
  revert mergedData log.
  induction files as [|[file [|fileData]] rest IH]; intros mergedData log; simpl.
  - rewrite !app_nil_r. reflexivity.
  - rewrite (IH mergedData (log ++ [Error_parsing_file file])).
    rewrite (IH [] [Error_parsing_file file]). simpl.
    rewrite <- app_assoc. reflexivity.
  - rewrite (IH (concat mergedData fileData) log).
    rewrite (IH (concat [] fileData) []). simpl.
    destruct fileData; simpl; rewrite <- app_assoc; reflexivity.
Qed.

Lemma forEach_file_contributions (files : list (string * file_result)) :
  forEach_file files [] [] = (flat_map contribution files, flat_map complaint files).
Proof.
  induction files as [|[file [|fileData]] rest IH]; simpl; [reflexivity| |].
  - rewrite forEach_file_app, IH. reflexivity.
  - rewrite forEach_file_app, IH. unfold contribution. simpl.
    destruct fileData; reflexivity.
Qed.

Lemma mergeData_Files (files : list (string * file_result)) :
  mergeData (Files files) =
  (Resolved (flat_map contribution files), flat_map complaint files).
Proof. unfold mergeData. rewrite forEach_file_contributions. reflexivity. Qed.

Lemma complaints_loader_events (files : list (string * file_result)) :
  forallb is_loader_event (flat_map complaint files) = true.
Proof.
  induction files as [|[file [|fileData]] rest IH]; simpl; auto.
Qed.

Lemma mergeData_log (dir : readdir_result) :
  forallb is_loader_event (snd (mergeData dir)) = true.
Proof.
  destruct dir as [|files]; [reflexivity|].
  rewrite mergeData_Files. apply complaints_loader_events.
Qed.

(** ** The orchestrator *)

Lemma main_resolved (dir : readdir_result) (answer : write_result)
  (data : list json) (log : list event) :
  mergeData dir = (Resolved data, log) ->
  main dir answer = log ++ after_merge data answer.
Proof. unfold main. intros ->. reflexivity. Qed.

Lemma main_pending (dir : readdir_result) (answer : write_result)
  (log : list event) :
  mergeData dir = (Pending, log) -> main dir answer = log.
Proof. unfold main. intros ->. reflexivity. Qed.

Lemma loader_event_not_write (log : list event) :
  forallb is_loader_event log = true -> existsb is_write log = false.
Proof.
  induction log as [|e rest IH]; simpl; [reflexivity|].
  intros H. apply andb_prop in H. destruct H as [He Hrest].
  rewrite (IH Hrest). destruct e; simpl in *; congruence.
Qed.

Lemma loader_event_not_call (log : list event) :
  forallb is_loader_event log = true -> existsb is_call_check log = false.
Proof.
  induction log as [|e rest IH]; simpl; [reflexivity|].
  intros H. apply andb_prop in H. destruct H as [He Hrest].
  rewrite (IH Hrest). destruct e; simpl in *; congruence.
Qed.

Lemma validateItemFormat_isValid (data : list json) (v : validation) :
  validateItemFormat data = Ok v ->
  isValid v = match invalidItems v with [] => true | _ => false end.
Proof.
  unfold validateItemFormat, bind.
  destruct (forEach_validateItem data []) as [invalid|e]; [|discriminate].
  intros H. injection H as <-. simpl. destruct invalid; reflexivity.
Qed.

Lemma checkForDuplicateNumber_hasDuplicate (data : list json) (c : check) :
  checkForDuplicateNumber data = Ok c ->
  hasDuplicate c = match duplicates c with [] => false | _ => true end.
Proof.
  unfold checkForDuplicateNumber, bind.
  destruct (for_of data [] []) as [dups|e]; [|discriminate].
  intros H. injection H as <-. simpl. destruct dups; reflexivity.
Qed.

(** The three ways past the shape validator, and the one way to a write. *)
Lemma after_merge_cases (data : list json) (answer : write_result) :
  (exists e, validateItemFormat data = Throw e /\
             after_merge data answer =
             [Call_validateItemFormat; Error_occurred e]) \/
  (exists v, validateItemFormat data = Ok v /\ isValid v = false /\
             after_merge data answer =
             [Call_validateItemFormat; Error_invalid_items;
              Table_invalid_items (invalidItems v)]) \/
  (exists v, validateItemFormat data = Ok v /\ isValid v = true /\
             after_merge data answer =
             Call_validateItemFormat :: after_validation data answer).
Proof.
  unfold after_merge. destruct (validateItemFormat data) as [v|e].
  - destruct (isValid v) eqn:E; simpl.
    + right. right. exists v. auto.
    + right. left. exists v. auto.
  - left. exists e. auto.
Qed.

Lemma after_validation_cases (data : list json) (answer : write_result) :
  (exists e, checkForDuplicateNumber data = Throw e /\
             after_validation data answer =
             [Call_checkForDuplicateNumber; Error_occurred e]) \/
  (exists c, checkForDuplicateNumber data = Ok c /\ hasDuplicate c = true /\
             after_validation data answer =
             [Call_checkForDuplicateNumber; Error_duplicates;
              Table_duplicates (duplicates c)]) \/
  (exists c, checkForDuplicateNumber data = Ok c /\ hasDuplicate c = false /\
             after_validation data answer =
             Call_checkForDuplicateNumber :: write data answer).
Proof.
  unfold after_validation. destruct (checkForDuplicateNumber data) as [c|e].
  - destruct (hasDuplicate c) eqn:E; simpl.
    + right. left. exists c. auto.
    + right. right. exists c. auto.
  - left. exists e. auto.
Qed.

(** A run writes exactly when the loader resolves and both validators
    return an empty report; it then writes the merged data. *)
Lemma main_writes (dir : readdir_result) (answer : write_result)
  (path content : string) :
  In (WriteFile path content) (main dir answer) ->
  exists data log v c,
    mergeData dir = (Resolved data, log) /\
    validateItemFormat data = Ok v /\ isValid v = true /\
    checkForDuplicateNumber data = Ok c /\ hasDuplicate c = false /\
    path = savePath /\ content = JSON_stringify data 2.
Proof.
  intros Hin.
  pose proof (mergeData_log dir) as Hlog.
  destruct (mergeData dir) as [[data|] log] eqn:Hmerge; simpl in Hlog.
  2:{ rewrite (main_pending _ answer _ Hmerge) in Hin.
      apply loader_event_not_write in Hlog.
      assert (existsb is_write log = true)
        by (apply existsb_exists; exists (WriteFile path content); auto).
      congruence. }
  rewrite (main_resolved _ answer _ _ Hmerge) in Hin. apply in_app_or in Hin.
  destruct Hin as [Hin | Hin].
  { apply loader_event_not_write in Hlog.
    assert (existsb is_write log = true)
      by (apply existsb_exists; exists (WriteFile path content); auto).
    congruence. }
  destruct (after_merge_cases data answer)
    as [[e [_ Hm]] | [[v [_ [_ Hm]]] | [v [Hv [Hvalid Hm]]]]];
    rewrite Hm in Hin; cbn [In] in Hin.
  - destruct Hin as [H | [H | []]]; discriminate.
  - destruct Hin as [H | [H | [H | []]]]; discriminate.
  - destruct Hin as [H | Hin]; [discriminate|].
    destruct (after_validation_cases data answer)
      as [[e [_ Hc]] | [[c [_ [_ Hc]]] | [c [Hcheck [Hdup Hc]]]]];
      rewrite Hc in Hin; unfold write in Hin; cbn [In] in Hin.
    + destruct Hin as [H | [H | []]]; discriminate.
    + destruct Hin as [H | [H | [H | []]]]; discriminate.
    + destruct Hin as [H | [H | Hin]]; [discriminate| |].
      * injection H as <- <-. exists data, log, v, c. auto 10.
      * destruct answer; cbn [In] in Hin; destruct Hin as [H | []];
          discriminate.
Qed.

(** A run calls the uniqueness validator exactly when the loader resolves
    and the shape validator returns an empty report. *)
Lemma main_calls_check (dir : readdir_result) (answer : write_result) :
  In Call_checkForDuplicateNumber (main dir answer) ->
  exists data log v,
    mergeData dir = (Resolved data, log) /\
    validateItemFormat data = Ok v /\ isValid v = true.
Proof.
  intros Hin.
  pose proof (mergeData_log dir) as Hlog.
  assert (Hnot : ~ In Call_checkForDuplicateNumber (snd (mergeData dir))).
  { intros H. apply loader_event_not_call in Hlog.
    assert (existsb is_call_check (snd (mergeData dir)) = true)
      by (apply existsb_exists; exists Call_checkForDuplicateNumber; auto).
    congruence. }
  destruct (mergeData dir) as [[data|] log] eqn:Hmerge; simpl in Hnot.
  2:{ rewrite (main_pending _ answer _ Hmerge) in Hin. contradiction. }
  rewrite (main_resolved _ answer _ _ Hmerge) in Hin. apply in_app_or in Hin.
  destruct Hin as [Hin | Hin]; [contradiction|].
  destruct (after_merge_cases data answer)
    as [[e [_ Hm]] | [[v [_ [_ Hm]]] | [v [Hv [Hvalid Hm]]]]];
    rewrite Hm in Hin; cbn [In] in Hin.
  - destruct Hin as [H | [H | []]]; discriminate.
  - destruct Hin as [H | [H | [H | []]]]; discriminate.
  - exists data, log, v. auto.
Qed.

(** * The claims *)

(** ** Shape validation *)

(** Whatever the item, [every] leaves at most the one key it stopped at. *)
Lemma every_missing_one (item : json) (keys acc : list string) (missingKeys : list string) :
  every item keys acc = Ok (false, missingKeys) ->
  exists key, In key keys /\ missingKeys = acc ++ [key].
Proof.
  induction keys as [|key rest IH]; simpl; [discriminate|].
  unfold bind. destruct (hasKey item key) as [[|]|e]; [| |discriminate].
  - intros H. destruct (IH H) as [k [Hin Hk]]. exists k. auto.
  - intros H. injection H as <-. exists key. auto.
Qed.

(** Every entry of a report names exactly one missing field. *)
Lemma forEach_validateItem_missing_one (data : list json) (invalid invalid' : list invalidItem) :
  forEach_validateItem data invalid = Ok invalid' ->
  Forall (fun entry => List.length (missing entry) = 1) invalid ->
  Forall (fun entry => List.length (missing entry) = 1) invalid'.
Proof.
  revert invalid. induction data as [|item rest IH]; simpl; intros invalid.
  - intros H. injection H as <-. auto.
  - unfold bind at 1. destruct (validateItem item invalid) as [mid|e] eqn:Hitem; [|discriminate].
    intros Hrest Hall. apply (IH _ Hrest).
    unfold validateItem, bind in Hitem.
    destruct (currentRequiredKeys item) as [keys|e]; [|discriminate].
    destruct (every item keys []) as [[[|] missingKeys]|e] eqn:Hevery; [| |discriminate].
    + injection Hitem as <-. exact Hall.
    + destruct (Get item "number") as [number|e]; [|discriminate].
      injection Hitem as <-. apply Forall_app. split; [exact Hall|].
      constructor; [|constructor]. simpl.
      destruct (every_missing_one _ _ _ _ Hevery) as [key [_ ->]]. reflexivity.
Qed.

(** C1 (the code departs from the claim).  The record
    [audio_two_missing] is an audio record without [code] and without
    [audio]: the complete list of its missing fields is [code; audio].
    [validateItemFormat] gives it one entry, whose list holds [code] only,
    because [every] stops at the first key its callback rejects. *)
Theorem validateItemFormat_reports_first_missing_field_only :
  all_missing audio_two_missing = ["code"; "audio"] /\
  validateItemFormat [JObj audio_two_missing] =
    Ok {| isValid := false;
          invalidItems :=
            [{| channel := Some (JStr "7"); missing := ["code"] |}] |}.
Proof. split; reflexivity. Qed.

(** C5 (the code departs from the claim).  Line 58 compares with [==]:
    the record [type_in_array], whose [type] is the array [["audio"]] and
    not the string, is checked against the audio fields; and the record
    [type_with_toString], whose [type] is an object, is checked against no
    fields at all, the comparison throws and the run ends in the [catch]
    block. *)
Theorem currentRequiredKeys_compares_loosely :
  (assoc "type" type_in_array = Some (JArr [JStr "audio"]) /\
   is_audio type_in_array = false /\
   currentRequiredKeys (JObj type_in_array) = Ok audioRequiredKeys) /\
  (is_audio type_with_toString = false /\
   all_missing type_with_toString = ["type"] /\
   validateItemFormat [JObj type_with_toString] =
     Throw (TypeError "Cannot convert object to primitive value") /\
   forall answer,
     main toString_dir answer =
       [Call_validateItemFormat;
        Error_occurred (TypeError "Cannot convert object to primitive value")]).
Proof. repeat split; reflexivity. Qed.

(** C6 (the code departs from the claim).  Two required fields that the
    validator does not count as the claim says.  The field [audio] of
    [audio_two_missing] is absent, yet it is not counted as missing:
    [every] has stopped at [code] and the callback never sees [audio].
    The field [number] of [video_shadowing] is an own property with a
    string value, yet it is not counted as present: [item.hasOwnProperty]
    is the record's own field of that name, and calling it throws. *)
Theorem validateItemFormat_does_not_count_every_field :
  (currentRequiredKeys (JObj audio_two_missing) = Ok audioRequiredKeys /\
   In "audio" audioRequiredKeys /\
   present audio_two_missing "audio" = false /\
   every (JObj audio_two_missing) audioRequiredKeys [] = Ok (false, ["code"])) /\
  (In "number" (requiredKeys video_shadowing) /\
   present video_shadowing "number" = true /\
   hasKey (JObj video_shadowing) "number" =
     Throw (TypeError "item.hasOwnProperty is not a function")).
Proof. repeat split; try reflexivity; simpl; tauto. Qed.

(** What the report is, for records that leave [hasOwnProperty] alone and
    whose [type] is absent or a primitive: one entry for each record that
    misses a required field, in the order of the data, with the record's
    [number] and the first field it misses. *)
Lemma validateItem_plain_record (props : list (string * json)) (invalid : list invalidItem) :
  has_own "hasOwnProperty" props = false ->
  match assoc "type" props with
  | Some (JArr _) | Some (JObj _) => False
  | _ => True
  end ->
  validateItem (JObj props) invalid = Ok (invalid ++ entry_of props).
Proof.
  intros Hown Htype. unfold validateItem, entry_of.
  rewrite (currentRequiredKeys_primitive_type props Htype). simpl.
  rewrite (every_first_missing props Hown). simpl.
  destruct (List.find _ (requiredKeys props)); simpl.
  - reflexivity.
  - rewrite app_nil_r. reflexivity.
Qed.

Lemma forEach_validateItem_plain_records (records : list (list (string * json)))
  (invalid : list invalidItem) :
  Forall (fun props =>
            has_own "hasOwnProperty" props = false /\
            match assoc "type" props with
            | Some (JArr _) | Some (JObj _) => False
            | _ => True
            end) records ->
  forEach_validateItem (map JObj records) invalid =
    Ok (invalid ++ flat_map entry_of records).
Proof.
  intros Hplain. revert invalid.
  induction Hplain as [|props rest [Hown Htype] Hrest IH]; intros invalid; simpl.
  - rewrite app_nil_r. reflexivity.
  - rewrite (validateItem_plain_record props invalid Hown Htype). simpl.
    rewrite IH, app_assoc. reflexivity.
Qed.

(** ** The orchestrator and its output *)

(** C2.  In every run, whether [fs.writeFileSync] returns or throws when
    it is called: the output file is written only when the loader
    has resolved and both validators have returned an empty report; when
    the shape validator reports an invalid item nothing is written and the
    uniqueness validator is not called; when the shape validator reports
    none and the uniqueness validator reports a duplicate nothing is
    written. *)
Theorem main_writes_only_after_both_checks (dir : readdir_result)
  (answer : write_result) :
  (forall path content,
      In (WriteFile path content) (main dir answer) ->
      exists data log v c,
        mergeData dir = (Resolved data, log) /\
        validateItemFormat data = Ok v /\ invalidItems v = [] /\
        checkForDuplicateNumber data = Ok c /\ duplicates c = []) /\
  (forall data log v,
      mergeData dir = (Resolved data, log) ->
      validateItemFormat data = Ok v -> invalidItems v <> [] ->
      (forall path content, ~ In (WriteFile path content) (main dir answer)) /\
      ~ In Call_checkForDuplicateNumber (main dir answer)) /\
  (forall data log v c,
      mergeData dir = (Resolved data, log) ->
      validateItemFormat data = Ok v -> invalidItems v = [] ->
      checkForDuplicateNumber data = Ok c -> duplicates c <> [] ->
      forall path content, ~ In (WriteFile path content) (main dir answer)).
Proof.
  assert (Hwrite : forall path content,
             In (WriteFile path content) (main dir answer) ->
             exists data log v c,
               mergeData dir = (Resolved data, log) /\
               validateItemFormat data = Ok v /\ invalidItems v = [] /\
               checkForDuplicateNumber data = Ok c /\ duplicates c = []).
  { intros path content Hin.
    destruct (main_writes _ _ _ _ Hin)
      as [data [log [v [c [Hmerge [Hv [Hvalid [Hc [Hdup _]]]]]]]]].
    exists data, log, v, c. repeat split; try assumption.
    - pose proof (validateItemFormat_isValid _ _ Hv) as H. rewrite Hvalid in H.
      destruct (invalidItems v); [reflexivity | discriminate].
    - pose proof (checkForDuplicateNumber_hasDuplicate _ _ Hc) as H. rewrite Hdup in H.
      destruct (duplicates c); [reflexivity | discriminate]. }
  split; [exact Hwrite|]. split.
  - intros data log v Hmerge Hv Hinvalid. split.
    + intros path content Hin.
      destruct (Hwrite _ _ Hin) as [data' [log' [v' [c' [Hmerge' [Hv' [Hnone _]]]]]]].
      rewrite Hmerge in Hmerge'. injection Hmerge' as <- <-.
      rewrite Hv in Hv'. injection Hv' as <-. contradiction.
    + intros Hin.
      destruct (main_calls_check _ _ Hin) as [data' [log' [v' [Hmerge' [Hv' Hvalid]]]]].
      rewrite Hmerge in Hmerge'. injection Hmerge' as <- <-.
      rewrite Hv in Hv'. injection Hv' as <-.
      pose proof (validateItemFormat_isValid _ _ Hv) as H. rewrite Hvalid in H.
      destruct (invalidItems v); [contradiction | discriminate].
  - intros data log v c Hmerge Hv _ Hc Hdup path content Hin.
    destruct (Hwrite _ _ Hin) as [data' [log' [v' [c' [Hmerge' [_ [_ [Hc' Hnone]]]]]]]].
    rewrite Hmerge in Hmerge'. injection Hmerge' as <- <-.
    rewrite Hc in Hc'. injection Hc' as <-. contradiction.
Qed.

Lemma main_writes_only_after_both_checks_witness :
  (exists data log v c,
      mergeData sample_dir = (Resolved data, log) /\
      validateItemFormat data = Ok v /\ invalidItems v = [] /\
      checkForDuplicateNumber data = Ok c /\ duplicates c = []) /\
  ((forall path content,
       ~ In (WriteFile path content) (main invalid_dir Write_done)) /\
   ~ In Call_checkForDuplicateNumber (main invalid_dir Write_done)) /\
  (forall path content,
      ~ In (WriteFile path content)
          (main duplicate_dir (Write_failed (SystemError "EACCES") None))).
Proof.
  split; [|split].
  - apply (proj1 (main_writes_only_after_both_checks sample_dir Write_done)
             savePath (JSON_stringify [audio2; video1] 2)).
    vm_compute. tauto.
  - apply (proj1 (proj2 (main_writes_only_after_both_checks invalid_dir
                            Write_done))
             [video1; JObj audio_two_missing] []
             {| isValid := false;
                invalidItems :=
                  [{| channel := Some (JStr "7"); missing := ["code"] |}] |}).
    + reflexivity.
    + reflexivity.
    + discriminate.
  - apply (proj2 (proj2 (main_writes_only_after_both_checks duplicate_dir
                            (Write_failed (SystemError "EACCES") None)))
             [video1; video1'] []
             {| isValid := true; invalidItems := [] |}
             {| hasDuplicate := true;
                duplicates :=
                  [{| Dup.channel := Some (JStr "1"); Dup.count := 2 |}] |}).
    + reflexivity.
    + reflexivity.
    + reflexivity.
    + reflexivity.
    + discriminate.
Defined.

Lemma contributions_of_arrays (files : list (string * file_result)) (arrays : list (list json)) :
  map snd files = map (fun elems => Parsed (JArr elems)) arrays ->
  flat_map contribution files = List.concat arrays /\
  flat_map complaint files = [].
Proof.
  revert arrays. induction files as [|[file r] rest IH]; intros [|elems arrays]; simpl;
    try discriminate; [auto|].
  intros H. injection H as Hr Hrest. subst r.
  destruct (IH _ Hrest) as [H1 H2]. unfold contribution, complaint. simpl.
  fold contribution. fold complaint. rewrite H1, H2. auto.
Qed.

Lemma satisfies_schema_not_null (data : list json) :
  forallb satisfies_schema data = true -> ~ In JNull data.
Proof.
  intros Hall Hin. rewrite forallb_forall in Hall.
  specialize (Hall _ Hin). discriminate.
Qed.

(** Apart from records that carry a [hasOwnProperty] field, the script
    writes what C3 says: when every file parses to an array of records
    that satisfy their schema, with pairwise distinct numbers, the output
    is the concatenation of the arrays in the order of the directory,
    written with an indentation of two spaces; when the call returns the
    message gives the number of records, and when it throws the [catch]
    block prints the error. *)
Lemma main_writes_merged_data (files : list (string * file_result))
  (arrays : list (list json)) (answer : write_result) :
  map snd files = map (fun elems => Parsed (JArr elems)) arrays ->
  forallb satisfies_schema (List.concat arrays) = true ->
  existsb shadows_hasOwnProperty (List.concat arrays) = false ->
  NoDup (numbers (List.concat arrays)) ->
  main (Files files) answer =
    [Call_validateItemFormat; Call_checkForDuplicateNumber;
     WriteFile savePath (JSON_stringify (List.concat arrays) 2);
     match answer with
     | Write_done => Log (success (List.length (List.concat arrays)))
     | Write_failed e _ => Error_occurred e
     end].
Proof.
  intros Hfiles Hschema Hown Hdistinct.
  destruct (contributions_of_arrays _ _ Hfiles) as [Hdata Hlog].
  rewrite (main_resolved (Files files) answer (List.concat arrays) []).
  2:{ rewrite mergeData_Files, Hdata, Hlog. reflexivity. }
  simpl. unfold after_merge, validateItemFormat.
  rewrite (forEach_validateItem_valid _ _ Hschema Hown). simpl.
  unfold after_validation.
  rewrite (checkForDuplicateNumber_distinct _
             (satisfies_schema_not_null _ Hschema) Hdistinct).
  destruct answer; reflexivity.
Qed.

(** C3 (the code departs from the claim).  The one file of
    [shadowing_dir] parses to an array whose one record satisfies the
    video schema, so the claim has the script write that array; the script
    writes nothing: the record has a field named [hasOwnProperty], the
    shape validator throws at line 63 and the run ends in the [catch]
    block. *)
Theorem main_writes_nothing_for_shadowing_record :
  satisfies_schema (JObj video_shadowing) = true /\
  mergeData shadowing_dir = (Resolved [JObj video_shadowing], []) /\
  forall answer,
    main shadowing_dir answer =
      [Call_validateItemFormat;
       Error_occurred (TypeError "item.hasOwnProperty is not a function")].
Proof. repeat split; reflexivity. Qed.

(** ** Uniqueness *)

(** C4.  On a merged collection (its items are records, none is [null])
    [checkForDuplicateNumber] returns a report in which no value has two
    entries; an entry with value [v] and count [k] is in it exactly when
    [v] occurs [k] times among the numbers and [k] is at least 2, so a
    value that occurs once has none; and the entries stand in the order of
    the second occurrences of their values. *)
Theorem checkForDuplicateNumber_report (data : list json) :
  ~ In JNull data ->
  exists dups,
    checkForDuplicateNumber data =
      Ok {| hasDuplicate := Nat.ltb 0 (List.length dups); duplicates := dups |} /\
    NoDup (map Dup.channel dups) /\
    (forall v k,
        In {| Dup.channel := v; Dup.count := k |} dups <->
        2 <= k /\ occurrences v (numbers data) = k) /\
    StronglySorted lt
      (map (fun d => second_occurrence (Dup.channel d) (numbers data)) dups).
Proof.
  intros Hnull.
  destruct (checkForDuplicateNumber_counted data Hnull)
    as [existing [dups [Hrun Hstate]]].
  exists dups. split; [exact Hrun|]. split; [exact (counted_once _ _ _ Hstate)|].
  split; [|exact (counted_order _ _ _ Hstate)].
  pose proof (counted_count _ _ _ Hstate) as Hcount. rewrite Forall_forall in Hcount.
  intros v k. split.
  - intros Hin. pose proof (Hcount _ Hin) as Hk. simpl in Hk.
    assert (Hv : In v (map Dup.channel dups)).
    { apply in_map_iff. exists {| Dup.channel := v; Dup.count := k |}. auto. }
    apply (counted_twice _ _ _ Hstate) in Hv. lia.
  - intros [Hk Hocc].
    assert (Hv : In v (map Dup.channel dups)).
    { apply (counted_twice _ _ _ Hstate). lia. }
    apply in_map_iff in Hv. destruct Hv as [[c n] [Hc Hin]]. simpl in Hc. subst c.
    pose proof (Hcount _ Hin) as Hn. simpl in Hn.
    replace k with n by lia. exact Hin.
Qed.

Lemma checkForDuplicateNumber_report_witness :
  exists dups,
    checkForDuplicateNumber repeated =
      Ok {| hasDuplicate := Nat.ltb 0 (List.length dups); duplicates := dups |} /\
    NoDup (map Dup.channel dups) /\
    (forall v k,
        In {| Dup.channel := v; Dup.count := k |} dups <->
        2 <= k /\ occurrences v (numbers repeated) = k) /\
    StronglySorted lt
      (map (fun d => second_occurrence (Dup.channel d) (numbers repeated)) dups).
Proof.
  apply (checkForDuplicateNumber_report repeated).
  simpl. intros H. repeat (destruct H as [H | H]; [discriminate|]). exact H.
Defined.

(** The report on [repeated]: ["2"] occurs at the positions 0 and 3, ["1"]
    at 1, 2 and 4, so ["1"] is repeated first and reported first. *)
Example checkForDuplicateNumber_repeated :
  checkForDuplicateNumber repeated =
    Ok {| hasDuplicate := true;
          duplicates :=
            [{| Dup.channel := Some (JStr "1"); Dup.count := 3 |};
             {| Dup.channel := Some (JStr "2"); Dup.count := 2 |}] |}.
Proof. reflexivity. Qed.

(** A value that occurs among the numbers is one of them. *)
Lemma occurrences_In (v : value) (ns : list value) :
  1 <= occurrences v ns -> In v ns.
Proof.
  unfold occurrences. induction ns as [|n rest IH]; simpl; [lia|].
  destruct (same_value n v) eqn:E.
  - intros _. left. apply same_value_eq. exact E.
  - intros H. right. apply IH. exact H.
Qed.

(** C10.  In a run that calls the uniqueness validator the loader has
    resolved, every item of the merged data is a record whose [number] is
    a string, the validator returns a report, and every value it reports
    is a string. *)
Theorem checkForDuplicateNumber_reads_strings (dir : readdir_result)
  (answer : write_result) :
  In Call_checkForDuplicateNumber (main dir answer) ->
  exists data log c,
    mergeData dir = (Resolved data, log) /\
    Forall (fun item => exists props s,
                item = JObj props /\ Get item "number" = Ok (Some (JStr s))) data /\
    Forall is_string (numbers data) /\
    checkForDuplicateNumber data = Ok c /\
    Forall (fun d => is_string (Dup.channel d)) (duplicates c).
Proof.
  intros Hin.
  destruct (main_calls_check _ _ Hin) as [data [log [v [Hmerge [Hv Hvalid]]]]].
  assert (Hschema : forallb satisfies_schema data = true).
  { pose proof (validateItemFormat_isValid _ _ Hv) as Hnone. rewrite Hvalid in Hnone.
    unfold validateItemFormat, bind in Hv.
    destruct (forEach_validateItem data []) as [invalid|e] eqn:Hrun; [|discriminate].
    injection Hv as <-. simpl in Hnone.
    apply (forEach_validateItem_passes _ _ _ Hrun).
    destruct invalid; [reflexivity | discriminate]. }
  assert (Hrecords : Forall (fun item => exists props s,
                       item = JObj props /\ Get item "number" = Ok (Some (JStr s))) data).
  { apply Forall_forall. intros item Hitem. rewrite forallb_forall in Hschema.
    specialize (Hschema _ Hitem).
    destruct item as [ | b | t | s | l | props]; simpl in Hschema; try discriminate.
    rewrite forallb_forall in Hschema.
    destruct (present_string props "number") as [s Hs].
    { apply Hschema. unfold requiredKeys. destruct (is_audio props); simpl; tauto. }
    exists props, s. simpl. rewrite Hs. auto. }
  assert (Hstrings : Forall is_string (numbers data)).
  { unfold numbers. apply Forall_forall. intros n Hn. apply in_map_iff in Hn.
    destruct Hn as [item [<- Hitem]]. rewrite Forall_forall in Hrecords.
    destruct (Hrecords _ Hitem) as [props [s [-> Hget]]]. simpl in *.
    injection Hget as Hget. exists s. exact Hget. }
  destruct (checkForDuplicateNumber_counted data (satisfies_schema_not_null _ Hschema))
    as [existing [dups [Hrun Hstate]]].
  exists data, log, {| hasDuplicate := Nat.ltb 0 (List.length dups); duplicates := dups |}.
  repeat split; try assumption. simpl.
  apply Forall_forall. intros d Hd. rewrite Forall_forall in Hstrings.
  apply Hstrings. apply occurrences_In.
  assert (H2 : 2 <= occurrences (Dup.channel d) (numbers data)).
  { apply (counted_twice _ _ _ Hstate). apply in_map. exact Hd. }
  lia.
Qed.

Lemma checkForDuplicateNumber_reads_strings_witness :
  exists data log c,
    mergeData duplicate_dir = (Resolved data, log) /\
    Forall (fun item => exists props s,
                item = JObj props /\ Get item "number" = Ok (Some (JStr s))) data /\
    Forall is_string (numbers data) /\
    checkForDuplicateNumber data = Ok c /\
    Forall (fun d => is_string (Dup.channel d)) (duplicates c).
Proof.
  apply (checkForDuplicateNumber_reads_strings duplicate_dir Write_done).
  vm_compute. tauto.
Defined.

(** ** The loader *)

(** C7.  When [fs.readdir] succeeds the promise of [mergeData] resolves,
    whatever files fail to parse: a file that fails adds nothing but its
    console line, the elements of every file that parses to an array are
    in the merged data, the merged data hold the files' elements in the
    order of the directory, and the run goes on to the shape validator. *)
Theorem mergeData_skips_unparsable_files (files : list (string * file_result)) :
  mergeData (Files files) =
    (Resolved (flat_map contribution files), flat_map complaint files) /\
  (forall file, contribution (file, Unparsable) = [] /\
                complaint (file, Unparsable) = [Error_parsing_file file]) /\
  (forall file elems item,
      In (file, Parsed (JArr elems)) files -> In item elems ->
      In item (flat_map contribution files)) /\
  (forall before file after,
      files = before ++ (file, Unparsable) :: after ->
      flat_map contribution files =
        flat_map contribution before ++ flat_map contribution after) /\
  forall answer,
  exists rest,
    main (Files files) answer =
      flat_map complaint files ++ Call_validateItemFormat :: rest.
Proof.
  split; [apply mergeData_Files|]. split; [intros file; split; reflexivity|].
  split; [|split].
  - intros file elems item Hfile Hitem. apply in_flat_map.
    exists (file, Parsed (JArr elems)). split; [exact Hfile | exact Hitem].
  - intros before file after ->. rewrite flat_map_app. reflexivity.
  - intros answer.
    rewrite (main_resolved _ answer _ _ (mergeData_Files files)).
    unfold after_merge. eexists. reflexivity.
Qed.

Lemma mergeData_skips_unparsable_files_witness :
  mergeData sample_dir =
    (Resolved [audio2; video1], [Error_parsing_file "broken.json"]) /\
  In video1 (flat_map contribution sample_files) /\
  flat_map contribution sample_files =
    flat_map contribution [("audio.json", Parsed (JArr [audio2]))] ++
    flat_map contribution [("video.json", Parsed (JArr [video1]))].
Proof.
  destruct (mergeData_skips_unparsable_files sample_files)
    as [Hmerge [_ [Hin [Hskip _]]]].
  split; [exact Hmerge|]. split.
  - apply (Hin "video.json" [video1] video1); simpl; auto.
  - apply (Hskip [("audio.json", Parsed (JArr [audio2]))] "broken.json"
             [("video.json", Parsed (JArr [video1]))]).
    reflexivity.
Defined.

(** ** The validators write to their own objects only *)

Section Frame.

Import Heap.

Variables (n : nat) (ld : loc).

Lemma keeps_reads (A : Type) (m : M A) : reads m -> keeps n ld m (fun _ => True).
Proof.
  intros Hm h Hn Hfresh. rewrite (Hm h). unfold unchanged. auto.
Qed.

Lemma keeps_ret (A : Type) (a : A) (Q : A -> Prop) : Q a -> keeps n ld (ret a) Q.
Proof.
  intros Ha h Hn Hfresh. simpl. unfold unchanged. repeat split; auto.
  intros b Hb. injection Hb as <-. exact Ha.
Qed.

Lemma keeps_throw (A : Type) (e : error) (Q : A -> Prop) : keeps n ld (throw e) Q.
Proof.
  intros h Hn Hfresh. simpl. unfold unchanged. repeat split; auto. discriminate.
Qed.

Lemma keeps_weaken (A : Type) (m : M A) (Q R : A -> Prop) :
  keeps n ld m Q -> (forall a, Q a -> R a) -> keeps n ld m R.
Proof.
  intros Hm HQR h Hn Hfresh. destruct (Hm h Hn Hfresh) as [H1 [H2 [H3 H4]]].
  repeat split; auto.
Qed.

Lemma keeps_bind (A B : Type) (m : M A) (k : A -> M B) (Q : A -> Prop) (R : B -> Prop) :
  keeps n ld m Q -> (forall a, Q a -> keeps n ld (k a) R) ->
  keeps n ld (mbind m k) R.
Proof.
  intros Hm Hk h Hn Hfresh. unfold mbind.
  destruct (Hm h Hn Hfresh) as [H1 [H2 [H3 H4]]].
  destruct (m h) as [[a|e] h1]; simpl in *.
  - destruct (Hk a (H4 a eq_refl) h1 H1 H3) as [K1 [K2 [K3 K4]]].
    repeat split; auto.
    intros l Hl. rewrite (K2 l Hl). apply H2. exact Hl.
  - repeat split; auto. discriminate.
Qed.

Lemma keeps_alloc (o : object) :
  match o with Array elems => Forall (fresh n) elems | _ => True end ->
  keeps n ld (alloc o) (fresh n).
Proof.
  intros Ho h Hn Hfresh. simpl. rewrite length_app. repeat split.
  - lia.
  - intros l Hl. apply nth_error_app1. lia.
  - intros elems Hcell.
    destruct (Nat.lt_ge_cases ld (List.length h)) as [Hlt | Hge].
    + rewrite nth_error_app1 in Hcell by exact Hlt. apply Hfresh. exact Hcell.
    + rewrite nth_error_app2 in Hcell by exact Hge.
      destruct (ld - List.length h) as [|d]; simpl in Hcell.
      * injection Hcell as ->. exact Ho.
      * destruct d; discriminate.
  - intros a Ha. injection Ha as <-. simpl. exact Hn.
Qed.

Lemma update_length (l : loc) (o : object) (h : heap) :
  List.length (update l o h) = List.length h.
Proof.
  revert l. induction h as [|x rest IH]; intros [|l']; simpl; auto.
Qed.

Lemma update_other (l l' : loc) (o : object) (h : heap) :
  l' <> l -> nth_error (update l o h) l' = nth_error h l'.
Proof.
  revert l l'. induction h as [|x rest IH]; intros [|l] [|l'] Hne; simpl;
    try reflexivity; try congruence.
  apply IH. congruence.
Qed.

Lemma update_same (l : loc) (o : object) (h : heap) (x : object) :
  nth_error (update l o h) l = Some x -> x = o.
Proof.
  revert l. induction h as [|y rest IH]; intros [|l]; simpl; try discriminate.
  - congruence.
  - apply IH.
Qed.

(** A store at a fresh cell, of an object that is no array or an array of
    fresh values. *)
Lemma keeps_store (l : loc) (o : object) :
  n <= l ->
  (ld = l -> match o with Array elems => Forall (fresh n) elems | _ => True end) ->
  keeps n ld (store l o) (fun _ => True).
Proof.
  intros Hl Ho h Hn Hfresh. simpl. rewrite update_length. repeat split; auto.
  - intros l' Hl'. apply update_other. lia.
  - intros elems Hcell. destruct (Nat.eq_dec ld l) as [E | Hne].
    + specialize (Ho E). subst l. apply update_same in Hcell. subst o. exact Ho.
    + rewrite update_other in Hcell by exact Hne. apply Hfresh. exact Hcell.
Qed.

Lemma reads_load (v : val) : reads (load v).
Proof.
  intros h. unfold load. destruct v; try reflexivity.
  destruct (nth_error h l); reflexivity.
Qed.

Lemma reads_bind (A B : Type) (m : M A) (k : A -> M B) :
  reads m -> (forall a, reads (k a)) -> reads (mbind m k).
Proof.
  intros Hm Hk h. unfold mbind. specialize (Hm h).
  destruct (m h) as [[a|e] h1]; simpl in *; subst h1; [apply Hk | reflexivity].
Qed.

Lemma reads_get (item : val) (key : string) : reads (get item key).
Proof.
  destruct item; try (intros h; reflexivity).
  apply reads_bind; [apply reads_load|]. intros [elems|props|members] h; reflexivity.
Qed.

Lemma reads_hasOwnProperty (item : val) (key : string) :
  reads (hasOwnProperty item key).
Proof.
  destruct item; try (intros h; reflexivity).
  apply reads_bind; [apply reads_load|]. intros [elems|props|members] h; try reflexivity.
  simpl. destruct (owns "hasOwnProperty" props); reflexivity.
Qed.

Lemma reads_loose_eq_audio (v : val) : reads (loose_eq_audio v).
Proof. intros h. destruct v; reflexivity. Qed.

Lemma reads_length_of (array : val) : reads (length_of array).
Proof.
  apply reads_bind; [apply reads_load|]. intros [elems|props|members] h; reflexivity.
Qed.

Lemma reads_has (existing x : val) : reads (has existing x).
Proof.
  apply reads_bind; [apply reads_load|]. intros [elems|props|members] h; reflexivity.
Qed.

(** What [load] gives is what the heap holds. *)
Lemma load_cell (l : loc) (h : heap) (o : object) :
  fst (load (Ref l) h) = Ok o -> nth_error h l = Some o.
Proof.
  simpl. destruct (nth_error h l); simpl; [congruence | discriminate].
Qed.

(** [array.push(x)] on a fresh array, of a fresh value. *)
Lemma keeps_push (array x : val) :
  fresh n array -> fresh n x -> keeps n ld (push array x) (fun _ => True).
Proof.
  intros Harray Hx. destruct array; try apply keeps_throw. simpl in Harray.
  intros h Hn Hfresh. unfold push, mbind. simpl load.
  destruct (nth_error h l) as [[elems|props|members]|] eqn:Hcell;
    try (simpl; unfold unchanged; repeat split; auto; discriminate).
  apply (keeps_store l (Array (elems ++ [x])) Harray); try assumption.
  intros <-. apply Forall_app. split; [exact (Hfresh _ Hcell)|].
  constructor; [exact Hx | constructor].
Qed.

(** [obj.key = x] on a fresh object. *)
Lemma keeps_set (obj : val) (key : string) (x : val) :
  fresh n obj -> keeps n ld (set obj key x) (fun _ => True).
Proof.
  intros Hobj. destruct obj; try apply keeps_throw. simpl in Hobj.
  intros h Hn Hfresh. unfold set, mbind. simpl load.
  destruct (nth_error h l) as [[elems|props|members]|] eqn:Hcell;
    try (simpl; unfold unchanged; repeat split; auto; discriminate).
  apply (keeps_store l (Object (assign key x props)) Hobj); try assumption.
  intros _. exact I.
Qed.

(** [existing.add(x)] on a fresh set. *)
Lemma keeps_add (existing x : val) :
  fresh n existing -> keeps n ld (add existing x) (fun _ => True).
Proof.
  intros Hset. destruct existing; try apply keeps_throw. simpl in Hset.
  intros h Hn Hfresh. unfold add, mbind. simpl load.
  destruct (nth_error h l) as [[elems|props|members]|] eqn:Hcell;
    try (simpl; unfold unchanged; repeat split; auto; discriminate).
  destruct (existsb (same_value x) members).
  - simpl. unfold unchanged. repeat split; auto.
  - apply (keeps_store l (SetOf (members ++ [x])) Hset); try assumption.
    intros _. exact I.
Qed.

(** The shape validator: the arrays it pushes on are [missingKeys] and
    [invalidItems], which it has allocated. *)
Lemma keeps_every (item : val) (keys : list string) (missingKeys : val) :
  fresh n missingKeys ->
  keeps n ld (every item keys missingKeys) (fun _ => True).
Proof.
  intros Hfresh. induction keys as [|key rest IH]; simpl.
  - apply keeps_ret. exact I.
  - eapply keeps_bind; [apply keeps_reads, reads_hasOwnProperty|]. intros own _.
    eapply keeps_bind with (Q := fun _ => True).
    { destruct own; [|apply keeps_ret; exact I].
      eapply keeps_bind; [apply keeps_reads, reads_get|]. intros v _.
      apply keeps_ret. exact I. }
    intros hasKey _.
    eapply keeps_bind with (Q := fun _ => True).
    { destruct hasKey; simpl; [apply keeps_ret; exact I|].
      apply keeps_push; [exact Hfresh | exact I]. }
    intros _ _. destruct hasKey; [exact IH | apply keeps_ret; exact I].
Qed.

Lemma keeps_validateItem (invalidItems item : val) :
  fresh n invalidItems ->
  keeps n ld (validateItem invalidItems item) (fun _ => True).
Proof.
  intros Hfresh. unfold validateItem.
  eapply keeps_bind; [apply keeps_alloc; constructor|]. intros missingKeys Hmissing.
  eapply keeps_bind; [apply keeps_reads, reads_get|]. intros type _.
  eapply keeps_bind; [apply keeps_reads, reads_loose_eq_audio|]. intros audio _.
  eapply keeps_bind; [apply keeps_every; exact Hmissing|]. intros hasAllKeys _.
  destruct hasAllKeys; simpl; [apply keeps_ret; exact I|].
  eapply keeps_bind; [apply keeps_reads, reads_get|]. intros number _.
  eapply keeps_bind; [apply keeps_alloc; exact I|]. intros entry Hentry.
  apply keeps_push; assumption.
Qed.

Lemma keeps_forEach (data : val) (callback : val -> M unit) (k len : nat) :
  (forall item, keeps n ld (callback item) (fun _ => True)) ->
  keeps n ld (forEach data callback k len) (fun _ => True).
Proof.
  intros Hcallback. revert k. induction len as [|len IH]; intros k; simpl.
  - apply keeps_ret. exact I.
  - eapply keeps_bind; [apply keeps_reads, reads_load|].
    intros [elems|props|members] _; try apply keeps_throw.
    destruct (nth_error elems k) as [item|]; [|apply IH].
    eapply keeps_bind; [apply Hcallback|]. intros _ _. apply IH.
Qed.

(** The uniqueness validator: the object whose [count] it sets is an
    element of [duplicates], and [duplicates] holds only entries that the
    validator has allocated. *)
Lemma keeps_find_in (elems : list val) (number : val) :
  Forall (fresh n) elems -> keeps n ld (find_in elems number) (fresh n).
Proof.
  induction 1 as [|d rest Hd Hrest IH]; simpl.
  - apply keeps_ret. exact I.
  - eapply keeps_bind; [apply keeps_reads, reads_get|]. intros c _.
    destruct (same_value c number); [apply keeps_ret; exact Hd | exact IH].
Qed.

Lemma keeps_find (number : val) : keeps n ld (find (Ref ld) number) (fresh n).
Proof.
  intros h Hn Hfresh. unfold find, mbind. simpl load.
  destruct (nth_error h ld) as [[elems|props|members]|] eqn:Hcell;
    try (simpl; unfold unchanged; repeat split; auto; discriminate).
  apply keeps_find_in; [exact (Hfresh _ Hcell) | exact Hn | exact Hfresh].
Qed.

Lemma keeps_checkItem (existing item : val) :
  n <= ld -> fresh n existing ->
  keeps n ld (checkItem existing (Ref ld) item) (fun _ => True).
Proof.
  intros Hld Hexisting. unfold checkItem.
  eapply keeps_bind; [apply keeps_reads, reads_get|]. intros number _.
  eapply keeps_bind; [apply keeps_reads, reads_has|]. intros seen _.
  destruct seen; [|apply keeps_add; exact Hexisting].
  eapply keeps_bind; [apply keeps_find|]. intros duplicateEntry Hentry.
  destruct (truthy duplicateEntry).
  - eapply keeps_bind; [apply keeps_reads, reads_get|]. intros c _.
    apply keeps_set. exact Hentry.
  - eapply keeps_bind; [apply keeps_alloc; exact I|]. intros entry Hnew.
    apply keeps_push; [exact Hld | exact Hnew].
Qed.

Lemma keeps_for_of (data : val) (body : val -> M unit) (k fuel : nat) :
  (forall item, keeps n ld (body item) (fun _ => True)) ->
  keeps n ld (for_of data body k fuel) (fun _ => True).
Proof.
  intros Hbody. revert k. induction fuel as [|fuel IH]; intros k; simpl.
  - apply keeps_ret. exact I.
  - eapply keeps_bind; [apply keeps_reads, reads_load|].
    intros [elems|props|members] _; try apply keeps_throw.
    destruct (nth_error elems k) as [item|]; [|apply keeps_ret; exact I].
    eapply keeps_bind; [apply Hbody|]. intros _ _. apply IH.
Qed.

End Frame.

Lemma keeps_validateItemFormat (n : nat) (ld : Heap.loc) (data : Heap.val) :
  Heap.keeps n ld (Heap.validateItemFormat data) (fun _ => True).
Proof.
  unfold Heap.validateItemFormat.
  eapply keeps_bind; [apply keeps_alloc; constructor|]. intros invalidItems Hinvalid.
  eapply keeps_bind; [apply keeps_reads, reads_length_of|]. intros len _.
  eapply keeps_bind.
  { apply keeps_forEach. intros item. apply keeps_validateItem. exact Hinvalid. }
  intros _ _.
  eapply keeps_bind; [apply keeps_reads, reads_length_of|]. intros k _.
  eapply keeps_weaken; [apply keeps_alloc; exact I | auto].
Qed.

Lemma validateItemFormat_frame (h : Heap.heap) (data : Heap.val) :
  List.length h <= List.length (snd (Heap.validateItemFormat data h)) /\
  Heap.unchanged (List.length h) h (snd (Heap.validateItemFormat data h)).
Proof.
  destruct (keeps_validateItemFormat (List.length h) (List.length h) data h)
    as [H1 [H2 _]].
  - lia.
  - intros elems Hcell.
    assert (Hnone : nth_error h (List.length h) = None) by (apply nth_error_None; lia).
    congruence.
  - auto.
Qed.

Lemma checkForDuplicateNumber_frame (h : Heap.heap) (data : Heap.val) :
  List.length h <= List.length (snd (Heap.checkForDuplicateNumber data h)) /\
  Heap.unchanged (List.length h) h (snd (Heap.checkForDuplicateNumber data h)).
Proof.
  pose (n := List.length h).
  pose (ld := List.length (h ++ [Heap.SetOf []])).
  pose (h2 := (h ++ [Heap.SetOf []]) ++ [Heap.Array []]).
  pose (rest :=
    Heap.mbind (Heap.length_of data) (fun len =>
    Heap.mbind (Heap.for_of data
                  (Heap.checkItem (Heap.Ref n) (Heap.Ref ld)) 0 len) (fun _ =>
    Heap.mbind (Heap.length_of (Heap.Ref ld)) (fun k =>
    Heap.alloc (Heap.Object [("hasDuplicate", Heap.Bool (Nat.ltb 0 k));
                             ("duplicates", Heap.Ref ld)]))))).
  assert (Hrun : Heap.checkForDuplicateNumber data h = rest h2) by reflexivity.
  rewrite Hrun. fold n.
  assert (Hld : n <= ld) by (unfold n, ld; rewrite length_app; lia).
  assert (Hn2 : n <= List.length h2) by (unfold n, h2; rewrite !length_app; lia).
  assert (Hcell : nth_error h2 ld = Some (Heap.Array [])).
  { unfold h2, ld. rewrite nth_error_app2 by lia. rewrite Nat.sub_diag. reflexivity. }
  assert (Hkeeps : Heap.keeps n ld rest (fun _ => True)).
  { unfold rest.
    eapply keeps_bind; [apply keeps_reads, reads_length_of|]. intros len _.
    eapply keeps_bind.
    { apply keeps_for_of. intros item. apply keeps_checkItem; [exact Hld|].
      simpl. lia. }
    intros _ _.
    eapply keeps_bind; [apply keeps_reads, reads_length_of|]. intros k _.
    eapply keeps_weaken; [apply keeps_alloc; exact I | auto]. }
  destruct (Hkeeps h2 Hn2) as [H1 [H2 _]].
  { intros elems Helems. rewrite Hcell in Helems. injection Helems as <-. constructor. }
  split; [exact H1|].
  intros l Hl. rewrite (H2 l Hl). unfold h2.
  rewrite <- app_assoc. apply nth_error_app1. exact Hl.
Qed.

(** C9.  Neither validator writes to an object that existed before it was
    called: after [validateItemFormat], after [checkForDuplicateNumber],
    and after the two in a row as the script calls them, every cell of the
    heap that existed before (the array [data], its records, what they
    refer to) is as it was.  In a run that writes, the text written is the
    serialization of the data the loader resolved with. *)
Theorem validators_leave_the_data_unchanged (h : Heap.heap) (data : Heap.val) :
  Heap.unchanged (List.length h) h (snd (Heap.validateItemFormat data h)) /\
  Heap.unchanged (List.length h) h (snd (Heap.checkForDuplicateNumber data h)) /\
  Heap.unchanged (List.length h) h
    (snd (Heap.checkForDuplicateNumber data
            (snd (Heap.validateItemFormat data h)))) /\
  (forall dir answer path content,
      In (WriteFile path content) (main dir answer) ->
      exists mergedData log,
        mergeData dir = (Resolved mergedData, log) /\
        content = JSON_stringify mergedData 2).
Proof.
  destruct (validateItemFormat_frame h data) as [L1 U1].
  destruct (checkForDuplicateNumber_frame h data) as [L2 U2].
  destruct (checkForDuplicateNumber_frame
              (snd (Heap.validateItemFormat data h)) data) as [L3 U3].
  repeat split; try assumption.
  - intros l Hl. rewrite U3 by lia. apply U1. exact Hl.
  - intros dir answer path content Hin.
    destruct (main_writes _ _ _ _ Hin)
      as [mergedData [log [v [c [Hmerge [_ [_ [_ [_ [_ Hcontent]]]]]]]]]].
    exists mergedData, log. auto.
Qed.

Lemma validators_leave_the_data_unchanged_witness :
  Heap.unchanged 6 (snd (Heap.parse (JArr repeated) []))
    (snd (Heap.checkForDuplicateNumber (Heap.Ref 5)
            (snd (Heap.validateItemFormat (Heap.Ref 5)
                    (snd (Heap.parse (JArr repeated) [])))))) /\
  exists mergedData log,
    mergeData sample_dir = (Resolved mergedData, log) /\
    JSON_stringify [audio2; video1] 2 = JSON_stringify mergedData 2.
Proof.
  destruct (validators_leave_the_data_unchanged
              (snd (Heap.parse (JArr repeated) [])) (Heap.Ref 5))
    as [_ [_ [Hboth Hwrite]]].
  split; [exact Hboth|].
  apply (Hwrite sample_dir Write_done savePath
           (JSON_stringify [audio2; video1] 2)).
  vm_compute. tauto.
Defined.

(** The heap after the validators have run on parsed data: the cells of
    the data come first and are as [parse] built them, the validators'
    own objects follow.  The reports are those of [validateItemFormat] and
    [checkForDuplicateNumber] above. *)
Example heap_validateItemFormat_invalid :
  let '(data, h) := Heap.parse (JArr [video1; JObj audio_two_missing]) [] in
  Heap.validateItemFormat data h =
    (Ok (Heap.Ref 7),
     h ++ [Heap.Array [Heap.Ref 6];
           Heap.Array [];
           Heap.Array [Heap.Str "code"];
           Heap.Object [("channel", Heap.Str "7"); ("missing", Heap.Ref 5)];
           Heap.Object [("isValid", Heap.Bool false);
                        ("invalidItems", Heap.Ref 3)]]).
Proof. reflexivity. Qed.

Example heap_checkForDuplicateNumber_repeated :
  let '(data, h) := Heap.parse (JArr repeated) [] in
  Heap.checkForDuplicateNumber data h =
    (Ok (Heap.Ref 10),
     h ++ [Heap.SetOf [Heap.Str "2"; Heap.Str "1"];
           Heap.Array [Heap.Ref 8; Heap.Ref 9];
           Heap.Object [("channel", Heap.Str "1"); ("count", Heap.Int 3)];
           Heap.Object [("channel", Heap.Str "2"); ("count", Heap.Int 2)];
           Heap.Object [("hasDuplicate", Heap.Bool true);
                        ("duplicates", Heap.Ref 7)]]).
Proof. reflexivity. Qed.

(** On a record that shadows [hasOwnProperty] both models throw the same
    error, and the heap holds two more cells, the empty [invalidItems] and
    [missingKeys]. *)
Example heap_validateItemFormat_shadowing :
  validateItemFormat [JObj video_shadowing] =
    Throw (TypeError "item.hasOwnProperty is not a function") /\
  let '(data, h) := Heap.parse (JArr [JObj video_shadowing]) [] in
  Heap.validateItemFormat data h =
    (Throw (TypeError "item.hasOwnProperty is not a function"),
     h ++ [Heap.Array []; Heap.Array []]).
Proof. split; reflexivity. Qed.

(** * Further properties of the script *)

(** ** The shape validator, item by item *)

(** The first missing field does not depend on which of the two lists is
    searched when [type] is not a string: both lists begin with [number],
    [name], [code], [type], and the search stops at [type] at the
    latest. *)
Lemma first_missing_either_list (props : list (string * json)) :
  present props "type" = false ->
  List.find (fun key => negb (present props key)) audioRequiredKeys =
  List.find (fun key => negb (present props key)) videoRequiredKeys.
Proof.
  intros Htype. unfold audioRequiredKeys, videoRequiredKeys. simpl.
  rewrite Htype. simpl.
  destruct (present props "number"), (present props "name"),
    (present props "code"); reflexivity.
Qed.

Lemma loose_eq_audio_selects (props : list (string * json)) (audio : bool) :
  loose_eq_audio (assoc "type" props) = Ok audio ->
  List.find (fun key => negb (present props key))
    (if audio then audioRequiredKeys else videoRequiredKeys) =
  List.find (fun key => negb (present props key)) (requiredKeys props).
Proof.
  unfold requiredKeys, is_audio. intros Hloose.
  destruct (assoc "type" props) as [[ | b | t | s | l | p]|] eqn:Htype;
    simpl in Hloose;
    try (injection Hloose as <-; reflexivity).
  - destruct audio; [|reflexivity]. apply first_missing_either_list.
    unfold present. rewrite Htype. simpl. apply andb_false_r.
  - destruct audio; [|reflexivity]. apply first_missing_either_list.
    unfold present. rewrite Htype. simpl. apply andb_false_r.
Qed.

(** What the callback does with one item. *)
Lemma validateItem_returns (item : json) (invalid : list invalidItem) :
  breaks_validation item = false ->
  validateItem item invalid = Ok (invalid ++ report_of item).
Proof.
  destruct item as [ | b | t | s | l | props]; simpl; try discriminate;
    try (intros _; reflexivity).
  intros Hbreaks. apply orb_false_elim in Hbreaks. destruct Hbreaks as [Hloose Hown].
  unfold validateItem, currentRequiredKeys. simpl.
  destruct (loose_eq_audio (assoc "type" props)) as [audio|e] eqn:Haudio;
    [|discriminate].
  simpl. rewrite (every_first_missing props Hown). simpl.
  rewrite (loose_eq_audio_selects props audio Haudio). unfold entry_of.
  destruct (List.find _ (requiredKeys props)); simpl.
  - reflexivity.
  - rewrite app_nil_r. reflexivity.
Qed.

Lemma every_shadowing (props : list (string * json)) (key : string)
  (rest acc : list string) :
  has_own "hasOwnProperty" props = true ->
  every (JObj props) (key :: rest) acc =
    Throw (TypeError "item.hasOwnProperty is not a function").
Proof.
  intros Hown. cbn [every]. unfold hasKey, hasOwnProperty. rewrite Hown.
  reflexivity.
Qed.

Lemma validateItem_throws (item : json) (invalid : list invalidItem) :
  breaks_validation item = true ->
  exists e, validateItem item invalid = Throw e.
Proof.
  destruct item as [ | b | t | s | l | props]; simpl; try discriminate.
  - intros _. eexists. reflexivity.
  - intros Hbreaks. unfold validateItem, currentRequiredKeys.
    cbn [Get bind].
    destruct (loose_eq_audio (assoc "type" props)) as [audio|e];
      cbn [bind throws orb] in *.
    + destruct audio; unfold audioRequiredKeys, videoRequiredKeys;
        rewrite (every_shadowing props _ _ _ Hbreaks); eexists; reflexivity.
    + eexists. reflexivity.
Qed.

Lemma forEach_validateItem_returns (data : list json) (invalid : list invalidItem) :
  existsb breaks_validation data = false ->
  forEach_validateItem data invalid = Ok (invalid ++ flat_map report_of data).
Proof.
  revert invalid. induction data as [|item rest IH]; intros invalid; simpl.
  - intros _. rewrite app_nil_r. reflexivity.
  - intros H. apply orb_false_elim in H. destruct H as [Hitem Hrest].
    rewrite (validateItem_returns item invalid Hitem). simpl.
    rewrite (IH _ Hrest), app_assoc. reflexivity.
Qed.

Lemma forEach_validateItem_throws (data : list json) (invalid : list invalidItem) :
  existsb breaks_validation data = true ->
  exists e, forEach_validateItem data invalid = Throw e.
Proof.
  revert invalid. induction data as [|item rest IH]; intros invalid; simpl.
  - discriminate.
  - intros H. destruct (breaks_validation item) eqn:Hitem.
    + destruct (validateItem_throws item invalid Hitem) as [e He].
      exists e. rewrite He. reflexivity.
    + rewrite (validateItem_returns item invalid Hitem). simpl.
      apply IH. exact H.
Qed.

(** X1.  [validateItemFormat] throws exactly when the data hold an item
    that is [null], an object whose [type] cannot be converted for the
    comparison with ["audio"], or an object with a field named
    [hasOwnProperty]; on all other data it returns. *)
Theorem validateItemFormat_throws_iff (data : list json) :
  (exists e, validateItemFormat data = Throw e) <->
  existsb breaks_validation data = true.
Proof.
  unfold validateItemFormat. split.
  - intros [e He]. destruct (existsb breaks_validation data) eqn:Hbreaks;
      [reflexivity|].
    rewrite (forEach_validateItem_returns data [] Hbreaks) in He. discriminate.
  - intros Hbreaks.
    destruct (forEach_validateItem_throws data [] Hbreaks) as [e He].
    exists e. rewrite He. reflexivity.
Qed.

(** X2.  When [validateItemFormat] returns, its report holds, in the
    order of the data, one entry for each object that misses a required
    field of its variant (the variant chosen by the strict comparison of
    [type] with ["audio"]), with the object's [number] and the first field
    it misses, and one entry without channel, for [number], for each item
    that is a boolean, a number, a string or an array. *)
Theorem validateItemFormat_report (data : list json) :
  existsb breaks_validation data = false ->
  validateItemFormat data =
    Ok {| isValid := Nat.eqb (List.length (flat_map report_of data)) 0;
          invalidItems := flat_map report_of data |}.
Proof.
  intros Hbreaks. unfold validateItemFormat.
  rewrite (forEach_validateItem_returns data [] Hbreaks). reflexivity.
Qed.

Lemma validateItemFormat_report_witness :
  validateItemFormat [video1; JBool true; JObj type_in_array; JArr [video1]] =
    Ok {| isValid := false;
          invalidItems :=
            [{| channel := None; missing := ["number"] |};
             {| channel := Some (JStr "3"); missing := ["type"] |};
             {| channel := None; missing := ["number"] |}] |}.
Proof.
  apply (validateItemFormat_report
           [video1; JBool true; JObj type_in_array; JArr [video1]]).
  reflexivity.
Defined.

(** X3.  [validateItemFormat] answers [isValid] exactly when every item is
    an object that has all the required fields of its variant as strings
    and no field named [hasOwnProperty]. *)
Theorem validateItemFormat_isValid_iff (data : list json) :
  validateItemFormat data = Ok {| isValid := true; invalidItems := [] |} <->
  forallb satisfies_schema data = true /\
  existsb shadows_hasOwnProperty data = false.
Proof.
  unfold validateItemFormat. split.
  - intros Hrun. destruct (forEach_validateItem data []) as [invalid|e] eqn:Hloop;
      simpl in Hrun; [|discriminate].
    injection Hrun as _ Hnone. subst invalid.
    apply (forEach_validateItem_passes data [] [] Hloop). reflexivity.
  - intros [Hschema Hown].
    rewrite (forEach_validateItem_valid data [] Hschema Hown). reflexivity.
Qed.

Lemma validateItem_accumulates (item : json) (invalid : list invalidItem) :
  validateItem item invalid =
  (added <- validateItem item [] ;; Ok (invalid ++ added)).
Proof.
  unfold validateItem, bind.
  destruct (currentRequiredKeys item) as [keys|e]; [|reflexivity].
  destruct (every item keys []) as [[[|] missingKeys]|e]; try reflexivity.
  - rewrite app_nil_r. reflexivity.
  - destruct (Get item "number"); reflexivity.
Qed.

Lemma forEach_validateItem_app (front back : list json) (invalid : list invalidItem) :
  forEach_validateItem (front ++ back) invalid =
  (first <- forEach_validateItem front invalid ;;
   second <- forEach_validateItem back [] ;;
   Ok (first ++ second)).
Proof.
  revert invalid. induction front as [|item rest IH]; intros invalid; simpl.
  - revert invalid. induction back as [|item rest IH]; intros invalid; simpl.
    + rewrite app_nil_r. reflexivity.
    + rewrite (validateItem_accumulates item invalid).
      destruct (validateItem item []) as [added|e]; simpl; [|reflexivity].
      rewrite (IH (invalid ++ added)), (IH added).
      destruct (forEach_validateItem rest []) as [more|e]; simpl; [|reflexivity].
      rewrite app_assoc. reflexivity.
  - destruct (validateItem item invalid) as [mid|e]; simpl; [|reflexivity].
    apply IH.
Qed.

(** X4.  The report on two collections put one after the other is the
    report on the first followed by the report on the second, and the
    whole is valid when both are; if the validator throws on one of them
    it throws on the whole, with the error of the first that throws. *)
Theorem validateItemFormat_app (front back : list json) :
  validateItemFormat (front ++ back) =
  (first <- validateItemFormat front ;;
   second <- validateItemFormat back ;;
   Ok {| isValid := isValid first && isValid second;
         invalidItems := invalidItems first ++ invalidItems second |}).
Proof.
  unfold validateItemFormat. rewrite forEach_validateItem_app.
  destruct (forEach_validateItem front []) as [first|e]; simpl; [|reflexivity].
  destruct (forEach_validateItem back []) as [second|e]; simpl; [|reflexivity].
  rewrite length_app. destruct first, second; reflexivity.
Qed.

Lemma entry_of_one_field (props : list (string * json)) :
  Forall (fun entry => exists key,
            missing entry = [key] /\
            (In key videoRequiredKeys \/ In key audioRequiredKeys))
    (entry_of props) /\
  List.length (entry_of props) <= 1.
Proof.
  unfold entry_of.
  destruct (List.find _ (requiredKeys props)) as [key|] eqn:Hfind; simpl.
  - split; [|lia]. constructor; [|constructor]. exists key. split; [reflexivity|].
    apply find_some in Hfind. destruct Hfind as [Hin _].
    unfold requiredKeys in Hin. destruct (is_audio props); auto.
  - split; [constructor | lia].
Qed.

Lemma report_of_one_field (data : list json) :
  Forall (fun entry => exists key,
            missing entry = [key] /\
            (In key videoRequiredKeys \/ In key audioRequiredKeys))
    (flat_map report_of data) /\
  List.length (flat_map report_of data) <= List.length data.
Proof.
  induction data as [|item rest [IHfields IHlength]]; simpl.
  - split; [constructor | lia].
  - rewrite length_app. 
    assert (Hitem :
      Forall (fun entry => exists key,
                missing entry = [key] /\
                (In key videoRequiredKeys \/ In key audioRequiredKeys))
        (report_of item) /\
      List.length (report_of item) <= 1).
    { destruct item as [ | b | t | s | l | props];
        try (apply entry_of_one_field);
        (split; [|simpl; lia]); constructor; try constructor;
        exists "number"; simpl; auto. }
    destruct Hitem as [Hfields Hlength]. split; [|lia].
    apply Forall_app. split; assumption.
Qed.

(** X5.  A report that [validateItemFormat] returns has at most one entry
    for each item of the data, and every entry names exactly one missing
    field, a field of one of the two lists of required keys. *)
Theorem validateItemFormat_one_field_per_entry (data : list json) (v : validation) :
  validateItemFormat data = Ok v ->
  List.length (invalidItems v) <= List.length data /\
  Forall (fun entry => exists key,
            missing entry = [key] /\
            (In key videoRequiredKeys \/ In key audioRequiredKeys))
    (invalidItems v).
Proof.
  intros Hrun.
  destruct (existsb breaks_validation data) eqn:Hbreaks.
  - unfold validateItemFormat in Hrun.
    destruct (forEach_validateItem_throws data [] Hbreaks) as [e He].
    rewrite He in Hrun. discriminate.
  - unfold validateItemFormat in Hrun.
    rewrite (forEach_validateItem_returns data [] Hbreaks) in Hrun.
    simpl in Hrun. injection Hrun as <-. simpl.
    destruct (report_of_one_field data) as [Hfields Hlength]. auto.
Qed.

Lemma validateItemFormat_one_field_per_entry_witness :
  List.length [{| channel := Some (JStr "7"); missing := ["code"] |}] <= 2 /\
  Forall (fun entry => exists key,
            missing entry = [key] /\
            (In key videoRequiredKeys \/ In key audioRequiredKeys))
    [{| channel := Some (JStr "7"); missing := ["code"] |}].
Proof.
  apply (validateItemFormat_one_field_per_entry
           [video1; JObj audio_two_missing]
           {| isValid := false;
              invalidItems :=
                [{| channel := Some (JStr "7"); missing := ["code"] |}] |}).
  reflexivity.
Defined.

(** ** The uniqueness validator on any data *)

Lemma is_null_In (data : list json) :
  existsb is_null data = false -> ~ In JNull data.
Proof.
  intros Hnone Hin.
  assert (existsb is_null data = true)
    by (apply existsb_exists; exists JNull; auto).
  congruence.
Qed.

Lemma for_of_throws (data : list json) :
  existsb is_null data = true ->
  forall existing dups,
    for_of data existing dups =
      Throw (TypeError "Cannot read properties of null").
Proof.
  induction data as [|item rest IH]; simpl; [discriminate|].
  intros Hnull existing dups. destruct item; simpl in *; try reflexivity;
    (destruct (Set_has existing _); [destruct (find _ dups)|]); apply IH;
    exact Hnull.
Qed.

(** X6.  [checkForDuplicateNumber] throws exactly when an item of the
    data is [null], and then with the [TypeError] of reading a property of
    [null]; on all other data it returns a report. *)
Theorem checkForDuplicateNumber_throws_on_null (data : list json) :
  (existsb is_null data = true /\
   checkForDuplicateNumber data =
     Throw (TypeError "Cannot read properties of null")) \/
  (existsb is_null data = false /\
   exists c, checkForDuplicateNumber data = Ok c).
Proof.
  destruct (existsb is_null data) eqn:Hnull.
  - left. split; [reflexivity|]. unfold checkForDuplicateNumber.
    rewrite (for_of_throws data Hnull). reflexivity.
  - right. split; [reflexivity|].
    destruct (checkForDuplicateNumber_counted data (is_null_In data Hnull))
      as [existing [dups [Hrun _]]].
    eexists. exact Hrun.
Qed.

Lemma same_value_iff (a b : value) :
  same_value a b = true <-> a = b /\ primitive a = true.
Proof.
  split.
  - intros H. pose proof (same_value_eq a b H) as ->. split; [reflexivity|].
    destruct b as [[ | x | x | x | x | x]|]; simpl in *; congruence.
  - intros [-> Hprim].
    destruct b as [[ | x | x | x | x | x]|]; simpl in *; try discriminate;
      try reflexivity.
    + destruct x; reflexivity.
    + apply String.eqb_refl.
    + apply String.eqb_refl.
Qed.

Lemma occurrences_cons (v n : value) (rest : list value) :
  occurrences v (n :: rest) =
  (if same_value n v then 1 else 0) + occurrences v rest.
Proof.
  unfold occurrences. simpl. destruct (same_value n v); reflexivity.
Qed.

Lemma occurrences_primitive_In (v : value) (ns : list value) :
  primitive v = true -> In v ns -> 1 <= occurrences v ns.
Proof.
  intros Hprim. induction ns as [|n rest IH]; simpl; [tauto|].
  rewrite occurrences_cons. intros [-> | Hin].
  - rewrite (proj2 (same_value_iff v v) (conj eq_refl Hprim)). lia.
  - specialize (IH Hin). lia.
Qed.

(** No value occurs twice exactly when the primitive numbers are pairwise
    distinct. *)
Lemma occurrences_at_most_once (ns : list value) :
  (forall v, occurrences v ns <= 1) <-> NoDup (filter primitive ns).
Proof.
  induction ns as [|n rest IH]; simpl.
  - split; [constructor | intros _ v; unfold occurrences; simpl; lia].
  - split.
    + intros Hocc.
      assert (Hrest : forall v, occurrences v rest <= 1).
      { intros v. specialize (Hocc v). rewrite occurrences_cons in Hocc. lia. }
      destruct (primitive n) eqn:Hprim; [|apply IH; exact Hrest].
      constructor; [|apply IH; exact Hrest].
      intros Hin. apply filter_In in Hin. destruct Hin as [Hin _].
      pose proof (occurrences_primitive_In n rest Hprim Hin).
      specialize (Hocc n). rewrite occurrences_cons in Hocc.
      rewrite (proj2 (same_value_iff n n) (conj eq_refl Hprim)) in Hocc. lia.
    + intros Hnodup v. rewrite occurrences_cons.
      destruct (same_value n v) eqn:Hsame.
      * apply same_value_iff in Hsame. destruct Hsame as [<- Hprim].
        rewrite Hprim in Hnodup. inversion Hnodup as [|? ? Hnotin Hrest]; subst.
        destruct (occurrences n rest) eqn:Hn; [lia|]. exfalso. apply Hnotin.
        apply filter_In. split; [|exact Hprim]. apply occurrences_In. lia.
      * assert (Hrest : NoDup (filter primitive rest)).
        { destruct (primitive n); [inversion Hnodup; assumption | exact Hnodup]. }
        pose proof (proj2 IH Hrest v). lia.
Qed.

(** X7.  On data without [null], [checkForDuplicateNumber] reports no
    duplicate exactly when the numbers that are primitive values
    ([undefined] for a missing [number] included) are pairwise distinct;
    numbers that are arrays or objects never count as repeated. *)
Theorem checkForDuplicateNumber_none_iff (data : list json) :
  existsb is_null data = false ->
  (checkForDuplicateNumber data =
     Ok {| hasDuplicate := false; duplicates := [] |} <->
   NoDup (filter primitive (numbers data))).
Proof.
  intros Hnone.
  destruct (checkForDuplicateNumber_counted data (is_null_In data Hnone))
    as [existing [dups [Hrun Hstate]]].
  rewrite Hrun. rewrite <- occurrences_at_most_once. split.
  - intros Heq. injection Heq as _ Hdups. subst dups. intros v.
    destruct (Nat.le_gt_cases (occurrences v (numbers data)) 1) as [H | H];
      [exact H|].
    exfalso. apply (proj2 (counted_twice _ _ _ Hstate v)). lia.
  - intros Hocc. destruct dups as [|d rest]; [reflexivity|]. exfalso.
    pose proof (proj1 (counted_twice _ _ _ Hstate (Dup.channel d))
                  (or_introl eq_refl)).
    specialize (Hocc (Dup.channel d)). lia.
Qed.

Lemma checkForDuplicateNumber_none_iff_witness :
  checkForDuplicateNumber [video1; JObj type_in_array; audio2; JBool true] =
    Ok {| hasDuplicate := false; duplicates := [] |} <->
  NoDup (filter primitive
           (numbers [video1; JObj type_in_array; audio2; JBool true])).
Proof.
  apply (checkForDuplicateNumber_none_iff
           [video1; JObj type_in_array; audio2; JBool true]).
  reflexivity.
Defined.

Lemma occurrences_Permutation (v : value) (ns ns' : list value) :
  Permutation ns ns' -> occurrences v ns = occurrences v ns'.
Proof.
  induction 1 as [| n l l' _ IH | a b l | l l' l'' _ IH1 _ IH2].
  - reflexivity.
  - rewrite !occurrences_cons, IH. reflexivity.
  - rewrite !occurrences_cons. lia.
  - congruence.
Qed.

Lemma Permutation_no_null (data data' : list json) :
  Permutation data data' ->
  existsb is_null data = false -> existsb is_null data' = false.
Proof.
  intros Hperm Hnone. destruct (existsb is_null data') eqn:Hnull; [|reflexivity].
  apply existsb_exists in Hnull. destruct Hnull as [item [Hin Hitem]].
  apply (Permutation_in _ (Permutation_sym Hperm)) in Hin.
  assert (existsb is_null data = true)
    by (apply existsb_exists; exists item; auto).
  congruence.
Qed.

(** The entries of a report, from the state of the loop. *)
Lemma counted_entries (seen existing : list value) (dups : list Dup.entry) :
  counted seen existing dups ->
  NoDup dups /\
  forall v k,
    In {| Dup.channel := v; Dup.count := k |} dups <->
    2 <= k /\ occurrences v seen = k.
Proof.
  intros Hstate. split.
  - apply (NoDup_map_inv Dup.channel). exact (counted_once _ _ _ Hstate).
  - pose proof (counted_count _ _ _ Hstate) as Hcount.
    rewrite Forall_forall in Hcount. intros v k. split.
    + intros Hin. pose proof (Hcount _ Hin) as Hk. simpl in Hk.
      assert (Hv : In v (map Dup.channel dups)).
      { apply in_map_iff. exists {| Dup.channel := v; Dup.count := k |}. auto. }
      apply (counted_twice _ _ _ Hstate) in Hv. lia.
    + intros [Hk Hocc].
      assert (Hv : In v (map Dup.channel dups)).
      { apply (counted_twice _ _ _ Hstate). lia. }
      apply in_map_iff in Hv. destruct Hv as [[c n] [Hc Hin]]. simpl in Hc. subst c.
      pose proof (Hcount _ Hin) as Hn. simpl in Hn.
      replace k with n by lia. exact Hin.
Qed.

(** X8.  The order of the data decides only the order of the report: on
    two collections without [null] that hold the same items in different
    orders, [checkForDuplicateNumber] returns reports with the same
    entries, hence the same answer [hasDuplicate]. *)
Theorem checkForDuplicateNumber_Permutation (data data' : list json) :
  Permutation data data' ->
  existsb is_null data = false ->
  exists c c',
    checkForDuplicateNumber data = Ok c /\
    checkForDuplicateNumber data' = Ok c' /\
    Permutation (duplicates c) (duplicates c') /\
    hasDuplicate c = hasDuplicate c'.
Proof.
  intros Hperm Hnone.
  pose proof (Permutation_no_null _ _ Hperm Hnone) as Hnone'.
  destruct (checkForDuplicateNumber_counted data (is_null_In data Hnone))
    as [existing [dups [Hrun Hstate]]].
  destruct (checkForDuplicateNumber_counted data' (is_null_In data' Hnone'))
    as [existing' [dups' [Hrun' Hstate']]].
  destruct (counted_entries _ _ _ Hstate) as [Hnodup Hin].
  destruct (counted_entries _ _ _ Hstate') as [Hnodup' Hin'].
  assert (Hsame : Permutation dups dups').
  { apply NoDup_Permutation; try assumption. intros [v k].
    rewrite Hin, Hin'.
    rewrite (occurrences_Permutation v (numbers data) (numbers data')).
    - reflexivity.
    - unfold numbers. apply Permutation_map. exact Hperm. }
  eexists. eexists. split; [exact Hrun|]. split; [exact Hrun'|]. simpl.
  split; [exact Hsame|]. rewrite (Permutation_length Hsame). reflexivity.
Qed.

Lemma checkForDuplicateNumber_Permutation_witness :
  exists c c',
    checkForDuplicateNumber [video1; audio2; video1'] = Ok c /\
    checkForDuplicateNumber [audio2; video1'; video1] = Ok c' /\
    Permutation (duplicates c) (duplicates c') /\
    hasDuplicate c = hasDuplicate c'.
Proof.
  apply (checkForDuplicateNumber_Permutation
           [video1; audio2; video1'] [audio2; video1'; video1]).
  - apply (perm_trans (l' := [audio2; video1; video1'])).
    + apply perm_swap.
    + apply perm_skip. apply perm_swap.
  - reflexivity.
Defined.

(** The occurrences of one value and those of the others. *)
Lemma occurrences_split (v : value) (ns : list value) :
  List.length ns =
  occurrences v ns +
  List.length (filter (fun n => negb (same_value n v)) ns).
Proof.
  unfold occurrences. induction ns as [|n rest IH]; simpl; [reflexivity|].
  destruct (same_value n v); simpl; lia.
Qed.

Lemma occurrences_without (v w : value) (ns : list value) :
  w <> v ->
  occurrences w (filter (fun n => negb (same_value n v)) ns) = occurrences w ns.
Proof.
  intros Hne. induction ns as [|n rest IH]; simpl; [reflexivity|].
  rewrite occurrences_cons. destruct (same_value n v) eqn:Hv; simpl.
  - apply same_value_eq in Hv. subst n.
    rewrite (same_value_neq v w) by congruence. exact IH.
  - rewrite occurrences_cons, IH. reflexivity.
Qed.

Lemma sum_occurrences (vs : list value) :
  NoDup vs ->
  forall ns,
    fold_right (fun v sum => occurrences v ns + sum) 0 vs <= List.length ns.
Proof.
  induction 1 as [|v vs Hnotin Hnodup IH]; intros ns; simpl; [lia|].
  rewrite (occurrences_split v ns).
  specialize (IH (filter (fun n => negb (same_value n v)) ns)).
  assert (Hsame :
    fold_right (fun w sum =>
                  occurrences w (filter (fun n => negb (same_value n v)) ns) + sum)
      0 vs =
    fold_right (fun w sum => occurrences w ns + sum) 0 vs).
  { clear IH Hnodup. induction vs as [|w rest IHrest]; simpl; [reflexivity|].
    rewrite IHrest by (simpl in Hnotin; tauto).
    rewrite occurrences_without; [reflexivity|].
    intros ->. apply Hnotin. left. reflexivity. }
  rewrite Hsame in IH. lia.
Qed.

(** X9.  In a report of [checkForDuplicateNumber] no value is an array or
    an object, and the counts add up to at most the number of items. *)
Theorem checkForDuplicateNumber_counts_bounded (data : list json) (c : check) :
  checkForDuplicateNumber data = Ok c ->
  Forall (fun d => primitive (Dup.channel d) = true) (duplicates c) /\
  total_count (duplicates c) <= List.length data.
Proof.
  intros Hrun.
  assert (Hnone : existsb is_null data = false).
  { destruct (existsb is_null data) eqn:Hnull; [|reflexivity].
    unfold checkForDuplicateNumber in Hrun.
    rewrite (for_of_throws data Hnull) in Hrun. discriminate. }
  destruct (checkForDuplicateNumber_counted data (is_null_In data Hnone))
    as [existing [dups [Hrun' Hstate]]].
  rewrite Hrun in Hrun'. injection Hrun' as ->. simpl. split.
  - apply Forall_forall. intros d Hd.
    assert (H2 : 2 <= occurrences (Dup.channel d) (numbers data)).
    { apply (counted_twice _ _ _ Hstate). apply in_map. exact Hd. }
    destruct (primitive (Dup.channel d)) eqn:Hprim; [reflexivity|].
    rewrite occurrences_irreflexive in H2; [lia|].
    destruct (same_value (Dup.channel d) (Dup.channel d)) eqn:Hsame;
      [|reflexivity].
    apply same_value_iff in Hsame. destruct Hsame as [_ Hsame]. congruence.
  - pose proof (sum_occurrences _ (counted_once _ _ _ Hstate) (numbers data)) as Hsum.
    unfold numbers in Hsum at 2. rewrite length_map in Hsum.
    pose proof (counted_count _ _ _ Hstate) as Hcount.
    assert (Htotal :
      total_count dups =
      fold_right (fun v sum => occurrences v (numbers data) + sum) 0
        (map Dup.channel dups)).
    { clear Hsum Hstate Hrun.
      induction Hcount as [|d rest Hd _ IH]; simpl; [reflexivity|].
      rewrite Hd, IH. reflexivity. }
    rewrite Htotal. exact Hsum.
Qed.

Lemma checkForDuplicateNumber_counts_bounded_witness :
  Forall (fun d => primitive (Dup.channel d) = true)
    [{| Dup.channel := Some (JStr "1"); Dup.count := 3 |};
     {| Dup.channel := Some (JStr "2"); Dup.count := 2 |}] /\
  total_count
    [{| Dup.channel := Some (JStr "1"); Dup.count := 3 |};
     {| Dup.channel := Some (JStr "2"); Dup.count := 2 |}] <= 5.
Proof.
  apply (checkForDuplicateNumber_counts_bounded repeated
           {| hasDuplicate := true;
              duplicates :=
                [{| Dup.channel := Some (JStr "1"); Dup.count := 3 |};
                 {| Dup.channel := Some (JStr "2"); Dup.count := 2 |}] |}).
  reflexivity.
Defined.

(** ** Every run *)

Lemma validation_valid (data : list json) (v : validation) :
  validateItemFormat data = Ok v -> isValid v = true ->
  v = {| isValid := true; invalidItems := [] |}.
Proof.
  intros Hrun Hvalid. pose proof (validateItemFormat_isValid data v Hrun) as H.
  rewrite Hvalid in H. destruct v as [valid [|entry rest]]; simpl in *;
    [subst; reflexivity | discriminate].
Qed.

Lemma check_none (data : list json) (c : check) :
  checkForDuplicateNumber data = Ok c -> hasDuplicate c = false ->
  c = {| hasDuplicate := false; duplicates := [] |}.
Proof.
  intros Hrun Hnone.
  pose proof (checkForDuplicateNumber_hasDuplicate data c Hrun) as H.
  rewrite Hnone in H. destruct c as [dup [|entry rest]]; simpl in *;
    [subst; reflexivity | discriminate].
Qed.

(** Data that pass the shape validator hold strings as numbers. *)
Lemma satisfies_schema_numbers (data : list json) :
  forallb satisfies_schema data = true ->
  filter primitive (numbers data) = numbers data.
Proof.
  induction data as [|item rest IH]; simpl; [reflexivity|].
  intros H. apply andb_prop in H. destruct H as [Hitem Hrest].
  destruct item as [ | b | t | s | l | props]; simpl in Hitem; try discriminate.
  rewrite forallb_forall in Hitem.
  destruct (present_string props "number") as [s Hs].
  { apply Hitem. unfold requiredKeys. destruct (is_audio props); simpl; tauto. }
  simpl. rewrite Hs. simpl. rewrite (IH Hrest). reflexivity.
Qed.

Lemma accepted_passes (data : list json) :
  accepted data <->
  validateItemFormat data = Ok {| isValid := true; invalidItems := [] |} /\
  checkForDuplicateNumber data =
    Ok {| hasDuplicate := false; duplicates := [] |}.
Proof.
  unfold accepted. split.
  - intros [Hschema [Hown Hdistinct]]. split.
    + unfold validateItemFormat.
      rewrite (forEach_validateItem_valid data [] Hschema Hown). reflexivity.
    + apply checkForDuplicateNumber_distinct;
        [apply satisfies_schema_not_null|]; assumption.
  - intros [Hvalid Hcheck].
    assert (Hpass : forallb satisfies_schema data = true /\
                    existsb shadows_hasOwnProperty data = false).
    { unfold validateItemFormat in Hvalid.
      destruct (forEach_validateItem data []) as [invalid|e] eqn:Hloop;
        simpl in Hvalid; [|discriminate].
      injection Hvalid as _ ->.
      apply (forEach_validateItem_passes data [] [] Hloop). reflexivity. }
    destruct Hpass as [Hschema Hown]. split; [exact Hschema|].
    split; [exact Hown|].
    rewrite <- (satisfies_schema_numbers data Hschema).
    apply occurrences_at_most_once. intros v.
    destruct (checkForDuplicateNumber_counted data
                (satisfies_schema_not_null data Hschema))
      as [existing [dups [Hrun Hstate]]].
    rewrite Hcheck in Hrun. injection Hrun as _ <-.
    destruct (Nat.le_gt_cases (occurrences v (numbers data)) 1) as [H | H];
      [exact H|].
    exfalso. apply (proj2 (counted_twice _ _ _ Hstate v)). lia.
Qed.

Lemma main_Files (files : list (string * file_result)) (answer : write_result) :
  main (Files files) answer =
  flat_map complaint files ++ after_merge (flat_map contribution files) answer.
Proof. apply main_resolved. apply mergeData_Files. Qed.

Lemma after_merge_accepted (data : list json) (answer : write_result) :
  accepted data ->
  after_merge data answer =
    [Call_validateItemFormat; Call_checkForDuplicateNumber;
     WriteFile savePath (JSON_stringify data 2);
     after_write data answer].
Proof.
  intros Haccepted. apply accepted_passes in Haccepted.
  destruct Haccepted as [Hvalid Hcheck].
  unfold after_merge, after_validation. rewrite Hvalid. simpl.
  rewrite Hcheck. destruct answer; reflexivity.
Qed.

Lemma main_writes_accepted (files : list (string * file_result))
  (answer : write_result) (path content : string) :
  In (WriteFile path content) (main (Files files) answer) ->
  accepted (flat_map contribution files) /\
  path = savePath /\
  content = JSON_stringify (flat_map contribution files) 2.
Proof.
  intros Hin.
  destruct (main_writes _ _ _ _ Hin)
    as [data [log [v [c [Hmerge [Hv [Hvalid [Hc [Hnone [Hpath Hcontent]]]]]]]]]].
  rewrite mergeData_Files in Hmerge. injection Hmerge as <- <-.
  split; [|split; assumption].
  apply accepted_passes. split.
  - rewrite Hv. f_equal. apply (validation_valid _ _ Hv Hvalid).
  - rewrite Hc. f_equal. apply (check_none _ _ Hc Hnone).
Qed.

(** The ending of a run on a readable directory. *)
Lemma after_merge_ending (data : list json) (answer : write_result) :
  ending data answer (after_merge data answer).
Proof.
  destruct (after_merge_cases data answer)
    as [[e [He Hm]] | [[v [Hv [Hinvalid Hm]]] | [v [Hv [Hvalid Hm]]]]];
    rewrite Hm.
  - apply Ends_in_catch. exact He.
  - apply (Ends_invalid data answer v Hv).
    pose proof (validateItemFormat_isValid data v Hv) as H.
    rewrite Hinvalid in H. destruct (invalidItems v); [discriminate|].
    discriminate.
  - pose proof (validation_valid data v Hv Hvalid) as Ev. subst v.
    assert (Hschema : forallb satisfies_schema data = true).
    { unfold validateItemFormat in Hv.
      destruct (forEach_validateItem data []) as [invalid|e] eqn:Hloop;
        simpl in Hv; [|discriminate].
      injection Hv as _ ->.
      apply (forEach_validateItem_passes data [] [] Hloop). reflexivity. }
    destruct (checkForDuplicateNumber_counted data
                (satisfies_schema_not_null data Hschema))
      as [existing [dups [Hrun _]]].
    destruct (after_validation_cases data answer)
      as [[e [He _]] | [[c [Hc [Hdup Hend]]] | [c [Hc [Hnone Hend]]]]];
      [congruence | | ]; rewrite Hend.
    + apply (Ends_duplicates data answer c Hv Hc).
      pose proof (checkForDuplicateNumber_hasDuplicate data c Hc) as H.
      rewrite Hdup in H. destruct (duplicates c); discriminate.
    + pose proof (check_none data c Hc Hnone) as Ec. subst c.
      unfold write. destruct answer as [|e remains].
      * apply (Ends_written data Hv Hc).
      * apply (Ends_write_failed data e remains Hv Hc).
Qed.

(** The console lines of the loader hold neither a write nor a message of
    success. *)
Lemma complaints_only (files : list (string * file_result)) (e : event) :
  In e (flat_map complaint files) -> exists file, e = Error_parsing_file file.
Proof.
  intros Hin. apply in_flat_map in Hin. destruct Hin as [[file r] [_ Hin]].
  unfold complaint in Hin. simpl in Hin.
  destruct r; simpl in Hin; [|contradiction].
  destruct Hin as [<- | []]. exists file. reflexivity.
Qed.

(** X10.  A run on a readable directory calls [fs.writeFileSync] exactly
    when the items that the parsable files contribute are all objects with
    the required string fields of their variant, none has a field named
    [hasOwnProperty], and their numbers are pairwise distinct.  The trace
    is then the console lines for the unparsable files, the two
    validators, the call, with the contributed items at an indentation of
    two spaces, and after it the message with their number when the call
    returns, or the line of the [catch] block with the error when the
    call throws.  The message of success is printed in no other run: a
    run that prints it has accepted data and a write that returned. *)
Theorem main_writes_iff_accepted (files : list (string * file_result))
  (answer : write_result) :
  (accepted (flat_map contribution files) <->
   main (Files files) answer =
     flat_map complaint files ++
     [Call_validateItemFormat; Call_checkForDuplicateNumber;
      WriteFile savePath (JSON_stringify (flat_map contribution files) 2);
      match answer with
      | Write_done => Log (success (List.length (flat_map contribution files)))
      | Write_failed e _ => Error_occurred e
      end]) /\
  (forall line,
      In (Log line) (main (Files files) answer) ->
      accepted (flat_map contribution files) /\
      answer = Write_done /\
      line = success (List.length (flat_map contribution files))).
Proof.
  split; [split|].
  - intros Haccepted.
    rewrite main_Files, (after_merge_accepted _ answer Haccepted).
    reflexivity.
  - intros Htrace.
    assert (Hin : In (WriteFile savePath
                        (JSON_stringify (flat_map contribution files) 2))
                    (main (Files files) answer)).
    { rewrite Htrace. apply in_or_app. right. simpl. auto. }
    apply (main_writes_accepted _ _ _ _ Hin).
  - intros line Hin. rewrite main_Files in Hin. apply in_app_or in Hin.
    destruct Hin as [Hin | Hin].
    { destruct (complaints_only _ _ Hin) as [file H]. discriminate. }
    pose proof (after_merge_ending (flat_map contribution files) answer) as Hend.
    set (tail := after_merge (flat_map contribution files) answer) in *.
    clearbody tail.
    destruct Hend as [a e He | a v Hv Hne | a c Hv Hc Hne | Hv Hc | e remains Hv Hc];
      cbn [In] in Hin;
      repeat (destruct Hin as [Hin | Hin]; [try discriminate|]);
      try contradiction.
    injection Hin as <-. split; [|split; reflexivity].
    apply accepted_passes. split; assumption.
Qed.

(** X11.  Every run ends in one of six ways.  When [fs.readdir] fails
    the trace is its one console line.  Otherwise the console lines for
    the unparsable files are followed by: the shape validator and the
    [catch] block; or the shape validator and its table, which is not
    empty; or both validators and the table of duplicates, which is not
    empty; or both validators, the call of [fs.writeFileSync] and, when
    the call returns, the message; or both validators, the call and, when
    it throws, the [catch] block with the error of the call and no
    message.  The uniqueness validator never throws in a run. *)
Theorem main_endings (dir : readdir_result) (answer : write_result) :
  (dir = ReaddirError /\ main dir answer = [Error_reading_directory]) \/
  (exists files tail,
      dir = Files files /\
      main dir answer = flat_map complaint files ++ tail /\
      ending (flat_map contribution files) answer tail).
Proof.
  destruct dir as [|files]; [left; split; reflexivity|]. right.
  exists files, (after_merge (flat_map contribution files) answer).
  split; [reflexivity|]. split; [apply main_Files|].
  apply after_merge_ending.
Qed.

(** ** Runs on a disk *)

Lemma node_at_writeFile (path content : string) (d : disk) :
  node_at path (writeFile path content d) = Some (File content).
Proof.
  induction d as [|[p n] rest IH]; simpl.
  - rewrite String.eqb_refl. reflexivity.
  - destruct (String.eqb path p) eqn:E; simpl; rewrite E; [reflexivity | exact IH].
Qed.

Lemma node_at_writeFile_other (path other content : string) (d : disk) :
  other <> path ->
  node_at other (writeFile path content d) = node_at other d.
Proof.
  intros Hne. induction d as [|[p n] rest IH]; simpl.
  - apply String.eqb_neq in Hne. rewrite Hne. reflexivity.
  - destruct (String.eqb path p) eqn:E; simpl.
    + apply String.eqb_eq in E. subst p.
      apply String.eqb_neq in Hne. rewrite Hne. reflexivity.
    + rewrite IH. reflexivity.
Qed.

(** Of two writes to one path the second is what stays. *)
Lemma writeFile_writeFile (path first second : string) (d : disk) :
  writeFile path second (writeFile path first d) = writeFile path second d.
Proof.
  induction d as [|[p n] rest IH]; simpl.
  - rewrite String.eqb_refl. reflexivity.
  - destruct (String.eqb path p) eqn:E; simpl; rewrite E; [reflexivity|].
    rewrite IH. reflexivity.
Qed.

Lemma written_In (trace : list event) (path content : string) :
  written trace = Some (path, content) -> In (WriteFile path content) trace.
Proof.
  induction trace as [|e rest IH]; simpl; [discriminate|].
  destruct e; try (intros H; right; apply IH; exact H).
  intros H. injection H as <- <-. left. reflexivity.
Qed.

Lemma written_complaints (files : list (string * file_result))
  (rest : list event) :
  written (flat_map complaint files ++ rest) = written rest.
Proof.
  induction files as [|[file r] more IH]; simpl; [reflexivity|].
  destruct r; simpl; exact IH.
Qed.

Lemma written_accepted (files : list (string * file_result))
  (answer : write_result) :
  accepted (flat_map contribution files) ->
  written (main (Files files) answer) =
    Some (savePath, JSON_stringify (flat_map contribution files) 2).
Proof.
  intros Haccepted.
  rewrite main_Files, written_complaints, (after_merge_accepted _ _ Haccepted).
  reflexivity.
Qed.

Lemma written_main (dir : readdir_result) (answer : write_result)
  (path content : string) :
  written (main dir answer) = Some (path, content) ->
  exists files,
    dir = Files files /\ accepted (flat_map contribution files) /\
    path = savePath /\
    content = JSON_stringify (flat_map contribution files) 2.
Proof.
  intros Hwritten. apply written_In in Hwritten.
  destruct dir as [|files].
  - simpl in Hwritten. destruct Hwritten as [H | []]. discriminate.
  - exists files. split; [reflexivity|].
    apply (main_writes_accepted _ _ _ _ Hwritten).
Qed.

(** Either a directory is readable and its data pass both validators, or
    no run on it calls [fs.writeFileSync]. *)
Lemma accepted_or_not (dir : readdir_result) :
  (exists files, dir = Files files /\ accepted (flat_map contribution files)) \/
  ((forall files, dir = Files files -> ~ accepted (flat_map contribution files)) /\
   forall answer, written (main dir answer) = None).
Proof.
  destruct (written (main dir Write_done)) as [[path content]|] eqn:Hwritten.
  - left. destruct (written_main _ _ _ _ Hwritten) as [files [Hdir [Hacc _]]].
    exists files. auto.
  - right.
    assert (Hnot : forall files,
               dir = Files files -> ~ accepted (flat_map contribution files)).
    { intros files -> Haccepted.
      rewrite (written_accepted _ _ Haccepted) in Hwritten. discriminate. }
    split; [exact Hnot|].
    intros answer.
    destruct (written (main dir answer)) as [[path content]|] eqn:Hw;
      [|reflexivity].
    destruct (written_main _ _ _ _ Hw) as [files [Hdir [Hacc _]]].
    destruct (Hnot files Hdir Hacc).
Qed.

Section RunsOnADisk.

Variable JSON_parse : string -> option json.

(** A write to a path that directory [dir] does not list leaves the
    entries of [dir] as they are. *)
Lemma entries_writeFile (dir path content : string) (d : disk) :
  entry_name dir path = None ->
  entries JSON_parse dir (writeFile path content d) = entries JSON_parse dir d.
Proof.
  intros Hname. induction d as [|[p n] rest IH]; simpl.
  - rewrite Hname. reflexivity.
  - destruct (String.eqb path p) eqn:E; simpl.
    + apply String.eqb_eq in E. subst p. rewrite Hname. reflexivity.
    + rewrite IH. reflexivity.
Qed.

(** The output file is neither the lists directory nor an entry of it. *)
Lemma readdir_writeFile (content : string) (d : disk) :
  readdir JSON_parse (writeFile savePath content d) = readdir JSON_parse d.
Proof.
  unfold readdir.
  rewrite node_at_writeFile_other by discriminate.
  rewrite entries_writeFile by reflexivity. reflexivity.
Qed.

Lemma run_accepted (d : disk) (files : list (string * file_result))
  (answer : write_result) :
  readdir JSON_parse d = Files files ->
  accepted (flat_map contribution files) ->
  run JSON_parse d answer =
    match answer with
    | Write_done =>
        writeFile savePath (JSON_stringify (flat_map contribution files) 2) d
    | Write_failed _ (Some remains) => writeFile savePath remains d
    | Write_failed _ None => d
    end.
Proof.
  intros Hdir Haccepted. unfold run.
  rewrite Hdir, (written_accepted _ _ Haccepted).
  destruct answer as [|e [remains|]]; reflexivity.
Qed.

Lemma run_rejected (d : disk) (answer : write_result) :
  written (main (readdir JSON_parse d) answer) = None ->
  run JSON_parse d answer = d.
Proof. unfold run. intros ->. reflexivity. Qed.

(** No run changes what the next one reads. *)
Lemma readdir_run (d : disk) (answer : write_result) :
  readdir JSON_parse (run JSON_parse d answer) = readdir JSON_parse d.
Proof.
  destruct (accepted_or_not (readdir JSON_parse d))
    as [[files [Hdir Haccepted]] | [_ Hnone]].
  - rewrite (run_accepted d files answer Hdir Haccepted).
    destruct answer as [|e [remains|]];
      [apply readdir_writeFile | apply readdir_writeFile | reflexivity].
  - rewrite (run_rejected d answer (Hnone answer)). reflexivity.
Qed.

End RunsOnADisk.

(** C8.  What a run whose write returns leaves in the output file is
    determined by what [fs.readdir] and the reads of line 25 give.  On
    two disks that give the same entries in the same order, whatever else
    the disks hold and whatever their output files held before: either
    the data are accepted and both output files end up with the same
    text, the serialization of the merged data at an indentation of two
    spaces; or the data are not accepted and both runs leave their disks
    as they were.  The output file is not among the entries of the lists
    directory, so a run leaves what the next run reads as it was, and a
    second run on the disk that a first one has left changes nothing. *)
Theorem run_deterministic (JSON_parse : string -> option json) (d d' : disk) :
  readdir JSON_parse d = readdir JSON_parse d' ->
  ((exists files,
       readdir JSON_parse d = Files files /\
       accepted (flat_map contribution files) /\
       node_at savePath (run JSON_parse d Write_done) =
         Some (File (JSON_stringify (flat_map contribution files) 2)) /\
       node_at savePath (run JSON_parse d' Write_done) =
         Some (File (JSON_stringify (flat_map contribution files) 2))) \/
   ((forall files,
        readdir JSON_parse d = Files files ->
        ~ accepted (flat_map contribution files)) /\
    run JSON_parse d Write_done = d /\ run JSON_parse d' Write_done = d')) /\
  readdir JSON_parse (run JSON_parse d Write_done) = readdir JSON_parse d /\
  run JSON_parse (run JSON_parse d Write_done) Write_done =
    run JSON_parse d Write_done.
Proof.
  intros Hsame. split; [|split].
  - destruct (accepted_or_not (readdir JSON_parse d))
      as [[files [Hdir Haccepted]] | [Hnot Hnone]].
    + left. exists files. split; [exact Hdir|]. split; [exact Haccepted|].
      rewrite (run_accepted JSON_parse d files Write_done Hdir Haccepted).
      rewrite Hsame in Hdir.
      rewrite (run_accepted JSON_parse d' files Write_done Hdir Haccepted).
      split; apply node_at_writeFile.
    + right. split; [exact Hnot|].
      split; apply run_rejected; [|rewrite <- Hsame]; apply Hnone.
  - apply readdir_run.
  - destruct (accepted_or_not (readdir JSON_parse d))
      as [[files [Hdir Haccepted]] | [_ Hnone]].
    + rewrite (run_accepted JSON_parse d files Write_done Hdir Haccepted).
      rewrite (run_accepted JSON_parse _ files Write_done);
        [apply writeFile_writeFile | | exact Haccepted].
      rewrite readdir_writeFile. exact Hdir.
    + rewrite (run_rejected JSON_parse d Write_done (Hnone Write_done)).
      apply run_rejected. apply Hnone.
Qed.

Lemma run_deterministic_witness :
  readdir sample_parse sample_disk = readdir sample_parse sample_disk' /\
  (((exists files,
        readdir sample_parse sample_disk = Files files /\
        accepted (flat_map contribution files) /\
        node_at savePath (run sample_parse sample_disk Write_done) =
          Some (File (JSON_stringify (flat_map contribution files) 2)) /\
        node_at savePath (run sample_parse sample_disk' Write_done) =
          Some (File (JSON_stringify (flat_map contribution files) 2))) \/
    ((forall files,
         readdir sample_parse sample_disk = Files files ->
         ~ accepted (flat_map contribution files)) /\
     run sample_parse sample_disk Write_done = sample_disk /\
     run sample_parse sample_disk' Write_done = sample_disk')) /\
   readdir sample_parse (run sample_parse sample_disk Write_done) =
     readdir sample_parse sample_disk /\
   run sample_parse (run sample_parse sample_disk Write_done) Write_done =
     run sample_parse sample_disk Write_done) /\
  node_at savePath sample_disk = None /\
  node_at savePath sample_disk' = Some (File "[]") /\
  node_at savePath (run sample_parse sample_disk Write_done) =
    Some (File sample_output) /\
  node_at savePath (run sample_parse sample_disk' Write_done) =
    Some (File sample_output).
Proof.
  split; [reflexivity|]. split.
  - apply (run_deterministic sample_parse sample_disk sample_disk').
    reflexivity.
  - repeat split; reflexivity.
Defined.

(** X12.  A run touches no path but that of the output file.  When the
    data are accepted the output file holds, after a write that returns,
    the serialization of the merged data, whatever it held before; after
    a write that throws it holds what the failed call has left, and the
    disk is as it was when the call has not touched the file.  In every
    other run, when [fs.readdir] fails, when a validator reports or when
    the shape validator throws, the disk is as it was. *)
Theorem run_overwrites_or_keeps (JSON_parse : string -> option json)
  (d : disk) (answer : write_result) :
  (forall path,
      path <> savePath ->
      node_at path (run JSON_parse d answer) = node_at path d) /\
  ((exists files,
       readdir JSON_parse d = Files files /\
       accepted (flat_map contribution files) /\
       match answer with
       | Write_done =>
           node_at savePath (run JSON_parse d answer) =
             Some (File (JSON_stringify (flat_map contribution files) 2))
       | Write_failed _ (Some remains) =>
           node_at savePath (run JSON_parse d answer) = Some (File remains)
       | Write_failed _ None => run JSON_parse d answer = d
       end) \/
   ((forall files,
        readdir JSON_parse d = Files files ->
        ~ accepted (flat_map contribution files)) /\
    run JSON_parse d answer = d)).
Proof.
  destruct (accepted_or_not (readdir JSON_parse d))
    as [[files [Hdir Haccepted]] | [Hnot Hnone]].
  - pose proof (run_accepted JSON_parse d files answer Hdir Haccepted) as Hrun.
    split.
    + intros path Hne. rewrite Hrun.
      destruct answer as [|e [remains|]];
        [apply node_at_writeFile_other | apply node_at_writeFile_other
         | reflexivity]; exact Hne.
    + left. exists files. split; [exact Hdir|]. split; [exact Haccepted|].
      rewrite Hrun.
      destruct answer as [|e [remains|]];
        [apply node_at_writeFile | apply node_at_writeFile | reflexivity].
  - pose proof (run_rejected JSON_parse d answer (Hnone answer)) as Hrun.
    split; [intros path _; rewrite Hrun; reflexivity|].
    right. split; assumption.
Qed.



(** ** The loader on a longer directory *)

(** X13.  Reading a directory listing that is one listing followed by
    another resolves with the data of the first followed by the data of
    the second, after the console lines of the first followed by those of
    the second: what a file contributes does not depend on the files
    around it. *)
Theorem mergeData_app (front back : list (string * file_result))
  (data1 data2 : list json) (log1 log2 : list event) :
  mergeData (Files front) = (Resolved data1, log1) ->
  mergeData (Files back) = (Resolved data2, log2) ->
  mergeData (Files (front ++ back)) = (Resolved (data1 ++ data2), log1 ++ log2).
Proof.
  rewrite !mergeData_Files. intros H1 H2.
  injection H1 as <- <-. injection H2 as <- <-.
  rewrite !flat_map_app. reflexivity.
Qed.

Lemma mergeData_app_witness :
  mergeData
    (Files ([("audio.json", Parsed (JArr [audio2])); ("broken.json", Unparsable)]
            ++ [("one.json", Parsed video1)])) =
  (Resolved ([audio2] ++ [video1]), [Error_parsing_file "broken.json"] ++ []).
Proof.
  apply (mergeData_app
           [("audio.json", Parsed (JArr [audio2])); ("broken.json", Unparsable)]
           [("one.json", Parsed video1)]); reflexivity.
Defined.

(** ** The reports on the heap *)

Section NewCells.

Import Heap.

Variables (n : nat) (ld : loc).

Lemma keeps_alloc_new (o : object) :
  match o with Array elems => Forall (fresh n) elems | _ => True end ->
  keeps n ld (alloc o) (fun v => exists l, v = Ref l /\ n <= l).
Proof.
  intros Ho h Hn Hfresh.
  destruct (keeps_alloc n ld o Ho h Hn Hfresh) as [H1 [H2 [H3 _]]].
  repeat split; try assumption.
  intros a Ha. simpl in Ha. injection Ha as <-. exists (List.length h). auto.
Qed.

Lemma keeps_validateItemFormat_new (data : val) :
  keeps n ld (validateItemFormat data) (fun v => exists l, v = Ref l /\ n <= l).
Proof.
  unfold validateItemFormat.
  eapply keeps_bind; [apply keeps_alloc; constructor|]. intros invalidItems Hinvalid.
  eapply keeps_bind; [apply keeps_reads, reads_length_of|]. intros len _.
  eapply keeps_bind.
  { apply keeps_forEach. intros item. apply keeps_validateItem. exact Hinvalid. }
  intros _ _.
  eapply keeps_bind; [apply keeps_reads, reads_length_of|]. intros k _.
  apply keeps_alloc_new. exact I.
Qed.

End NewCells.

(** X14.  On the heap, the report object that a validator returns is a
    cell that did not exist when the validator was called, and the heap
    has no fewer cells afterwards: a validator never hands back the data
    or one of its records, and never frees a cell. *)
Theorem heap_reports_are_new_objects (h : Heap.heap) (data : Heap.val) :
  (List.length h <= List.length (snd (Heap.validateItemFormat data h)) /\
   forall report,
     fst (Heap.validateItemFormat data h) = Ok report ->
     exists l, report = Heap.Ref l /\ List.length h <= l) /\
  (List.length h <= List.length (snd (Heap.checkForDuplicateNumber data h)) /\
   forall report,
     fst (Heap.checkForDuplicateNumber data h) = Ok report ->
     exists l, report = Heap.Ref l /\ List.length h <= l).
Proof.
  split.
  - destruct (keeps_validateItemFormat_new (List.length h) (List.length h) data h)
      as [H1 [_ [_ H4]]].
    + lia.
    + intros elems Hcell.
      assert (Hnone : nth_error h (List.length h) = None)
        by (apply nth_error_None; lia).
      congruence.
    + split; assumption.
  - pose (n := List.length h).
    pose (ld := List.length (h ++ [Heap.SetOf []])).
    pose (h2 := (h ++ [Heap.SetOf []]) ++ [Heap.Array []]).
    pose (rest :=
      Heap.mbind (Heap.length_of data) (fun len =>
      Heap.mbind (Heap.for_of data
                    (Heap.checkItem (Heap.Ref n) (Heap.Ref ld)) 0 len) (fun _ =>
      Heap.mbind (Heap.length_of (Heap.Ref ld)) (fun k =>
      Heap.alloc (Heap.Object [("hasDuplicate", Heap.Bool (Nat.ltb 0 k));
                               ("duplicates", Heap.Ref ld)]))))).
    assert (Hrun : Heap.checkForDuplicateNumber data h = rest h2) by reflexivity.
    rewrite Hrun. fold n.
    assert (Hld : n <= ld) by (unfold n, ld; rewrite length_app; lia).
    assert (Hn2 : n <= List.length h2) by (unfold n, h2; rewrite !length_app; lia).
    assert (Hcell : nth_error h2 ld = Some (Heap.Array [])).
    { unfold h2, ld. rewrite nth_error_app2 by lia. rewrite Nat.sub_diag.
      reflexivity. }
    assert (Hkeeps :
      Heap.keeps n ld rest (fun v => exists l, v = Heap.Ref l /\ n <= l)).
    { unfold rest.
      eapply keeps_bind; [apply keeps_reads, reads_length_of|]. intros len _.
      eapply keeps_bind.
      { apply keeps_for_of. intros item. apply keeps_checkItem; [exact Hld|].
        simpl. lia. }
      intros _ _.
      eapply keeps_bind; [apply keeps_reads, reads_length_of|]. intros k _.
      apply keeps_alloc_new. exact I. }
    destruct (Hkeeps h2 Hn2) as [H1 [_ [_ H4]]].
    { intros elems Helems. rewrite Hcell in Helems. injection Helems as <-.
      constructor. }
    split; assumption.
Qed.

Lemma heap_reports_are_new_objects_witness :
  (exists l, Heap.Ref 12 = Heap.Ref l /\ 6 <= l) /\
  (exists l, Heap.Ref 10 = Heap.Ref l /\ 6 <= l).
Proof.
  destruct (heap_reports_are_new_objects
              (snd (Heap.parse (JArr repeated) [])) (Heap.Ref 5))
    as [[_ Hshape] [_ Hunique]].
  split; [apply (Hshape (Heap.Ref 12)) | apply (Hunique (Heap.Ref 10))];
    reflexivity.
Defined.

(** ** The uniqueness validator on a longer collection *)

Lemma occurrences_app (v : value) (ns more : list value) :
  occurrences v (ns ++ more) = occurrences v ns + occurrences v more.
Proof.
  unfold occurrences. rewrite filter_app, length_app. reflexivity.
Qed.

(** The loop on a collection followed by another goes on, after the
    first, from the set and the entries it has built. *)
Lemma for_of_app (front : list json) :
  forall (existing : list value) (dups dups1 : list Dup.entry),
    for_of front existing dups = Ok dups1 ->
    exists existing1,
      forall back, for_of (front ++ back) existing dups =
                   for_of back existing1 dups1.
Proof.
  induction front as [|item rest IH]; intros existing dups dups1; simpl.
  - intros H. injection H as <-. exists existing. reflexivity.
  - destruct (Get item "number") as [number|e]; simpl; [|discriminate].
    destruct (Set_has existing number); [destruct (find number dups)|];
      apply IH.
Qed.

(** The loop only adds entries at the end. *)
Lemma for_of_keeps_channels (data : list json) :
  forall (existing : list value) (dups dups1 : list Dup.entry),
    for_of data existing dups = Ok dups1 ->
    exists more, map Dup.channel dups1 = map Dup.channel dups ++ more.
Proof.
  induction data as [|item rest IH]; intros existing dups dups1; simpl.
  - intros H. injection H as <-. exists []. rewrite app_nil_r. reflexivity.
  - destruct (Get item "number") as [number|e]; simpl; [|discriminate].
    destruct (Set_has existing number); [destruct (find number dups) as [i|]|];
      intros H; destruct (IH _ _ _ H) as [more Hmore].
    + exists more. rewrite Hmore, increment_channels. reflexivity.
    + exists (number :: more). rewrite Hmore, map_app, <- app_assoc. reflexivity.
    + exists more. exact Hmore.
Qed.

Lemma checkForDuplicateNumber_no_null (data : list json) (c : check) :
  checkForDuplicateNumber data = Ok c -> existsb is_null data = false.
Proof.
  intros Hrun. destruct (existsb is_null data) eqn:Hnull; [|reflexivity].
  unfold checkForDuplicateNumber in Hrun.
  rewrite (for_of_throws data Hnull) in Hrun. discriminate.
Qed.

(** X15.  When more items follow a collection, the report on the whole
    begins with the values of the report on the collection, in the same
    order, and each of them has its count raised by the number of its
    occurrences among the items that follow: a duplicate inside one file
    stays a duplicate of the merged data. *)
Theorem checkForDuplicateNumber_app (front back : list json) (c c' : check) :
  checkForDuplicateNumber front = Ok c ->
  checkForDuplicateNumber (front ++ back) = Ok c' ->
  (exists more,
      map Dup.channel (duplicates c') = map Dup.channel (duplicates c) ++ more) /\
  forall v k,
    In {| Dup.channel := v; Dup.count := k |} (duplicates c) ->
    In {| Dup.channel := v; Dup.count := k + occurrences v (numbers back) |}
      (duplicates c').
Proof.
  intros Hfront Hwhole. split.
  - unfold checkForDuplicateNumber in *.
    destruct (for_of front [] []) as [dups|e] eqn:Hloop; simpl in Hfront;
      [|discriminate].
    injection Hfront as <-. simpl.
    destruct (for_of_app front [] [] dups Hloop) as [existing1 Hgoes].
    rewrite (Hgoes back) in Hwhole.
    destruct (for_of back existing1 dups) as [dups'|e] eqn:Hloop';
      simpl in Hwhole; [|discriminate].
    injection Hwhole as <-. simpl.
    apply (for_of_keeps_channels back existing1 dups dups' Hloop').
  - pose proof (checkForDuplicateNumber_no_null _ _ Hfront) as Hnone.
    pose proof (checkForDuplicateNumber_no_null _ _ Hwhole) as Hnone'.
    destruct (checkForDuplicateNumber_counted front (is_null_In _ Hnone))
      as [existing [dups [Hrun Hstate]]].
    destruct (checkForDuplicateNumber_counted (front ++ back) (is_null_In _ Hnone'))
      as [existing' [dups' [Hrun' Hstate']]].
    rewrite Hfront in Hrun. injection Hrun as ->.
    rewrite Hwhole in Hrun'. injection Hrun' as ->. simpl.
    destruct (counted_entries _ _ _ Hstate) as [_ Hin].
    destruct (counted_entries _ _ _ Hstate') as [_ Hin'].
    intros v k Hentry. apply Hin in Hentry. destruct Hentry as [Hk Hocc].
    apply Hin'. unfold numbers in *. rewrite map_app, occurrences_app. lia.
Qed.

Lemma checkForDuplicateNumber_app_witness :
  (exists more,
      map Dup.channel
        [{| Dup.channel := Some (JStr "1"); Dup.count := 3 |};
         {| Dup.channel := Some (JStr "2"); Dup.count := 2 |}] =
      map Dup.channel
        [{| Dup.channel := Some (JStr "1"); Dup.count := 2 |}] ++ more) /\
  forall v k,
    In {| Dup.channel := v; Dup.count := k |}
      [{| Dup.channel := Some (JStr "1"); Dup.count := 2 |}] ->
    In {| Dup.channel := v;
          Dup.count := k + occurrences v (numbers [audio2; video1]) |}
      [{| Dup.channel := Some (JStr "1"); Dup.count := 3 |};
       {| Dup.channel := Some (JStr "2"); Dup.count := 2 |}].
Proof.
  apply (checkForDuplicateNumber_app [audio2; video1; video1'] [audio2; video1]
           {| hasDuplicate := true;
              duplicates :=
                [{| Dup.channel := Some (JStr "1"); Dup.count := 2 |}] |}
           {| hasDuplicate := true;
              duplicates :=
                [{| Dup.channel := Some (JStr "1"); Dup.count := 3 |};
                 {| Dup.channel := Some (JStr "2"); Dup.count := 2 |}] |});
    reflexivity.
Defined.
